(** * DisTube guild queue ([src/struct/Queue.ts])

    A shallow embedding of the [Queue] class: its fields as a record, its
    methods as programs of a small effect monad (queue state, the task
    queue, the voice connection, the related-song plugin, [Math.random]),
    a sequential interpreter that runs one command to completion, and a
    cooperative scheduler that interleaves commands at their [await]s. *)

From Stdlib Require Import ZArith QArith Qcanon Lia.
From stdpp Require Import base list strings.

Set Warnings "-register-all".

Open Scope Z_scope.

(** ** JavaScript values reaching the queue's arguments *)

(** A JS [number]: the finite doubles are carried as rationals. *)
Inductive JsNumber : Type :=
| NaN
| Infinity (negative : bool)
| Finite (q : Q).

Inductive JsValue : Type :=
| JsUndefined
| JsNull
| JsBool (b : bool)
| JsString (s : string)
| JsNum (n : JsNumber).

Definition num_of_Z (z : Z) : JsNumber := Finite (inject_Z z).
Definition JsInt (z : Z) : JsValue := JsNum (num_of_Z z).
Definition num_of_nat (n : nat) : JsNumber := num_of_Z (Z.of_nat n).

Module Num.

(** [!n] *)
Definition falsy (n : JsNumber) : bool :=
  match n with
  | NaN => true
  | Infinity _ => false
  | Finite q => Qeq_bool q 0
  end.

(** [isNaN(n)] *)
Definition isNaN (n : JsNumber) : bool :=
  match n with NaN => true | _ => false end.

(** [a < b] *)
Definition lt (a b : JsNumber) : bool :=
  match a, b with
  | NaN, _ | _, NaN => false
  | Infinity true, Infinity true => false
  | Infinity true, _ => true
  | _, Infinity true => false
  | Infinity false, _ => false
  | _, Infinity false => true
  | Finite x, Finite y => Qle_bool x y && negb (Qeq_bool x y)
  end.

(** [a > b] *)
Definition gt (a b : JsNumber) : bool := lt b a.

(** [a <= b] *)
Definition le (a b : JsNumber) : bool :=
  match a, b with
  | NaN, _ | _, NaN => false
  | Infinity true, _ => true
  | _, Infinity false => true
  | Infinity false, _ => false
  | _, Infinity true => false
  | Finite x, Finite y => Qle_bool x y
  end.

(** [a === b] on numbers *)
Definition eq (a b : JsNumber) : bool :=
  match a, b with
  | Finite x, Finite y => Qeq_bool x y
  | Infinity s, Infinity t => Bool.eqb s t
  | _, _ => false
  end.

(** [-a] *)
Definition neg (a : JsNumber) : JsNumber :=
  match a with
  | NaN => NaN
  | Infinity s => Infinity (negb s)
  | Finite q => Finite (- q)
  end.

(** [a + z] for an integer literal [z]. The sum is the exact one: it is the
    JavaScript sum wherever that is representable, as it is for the integer
    positions of a queue; the rounding of other sums is not modelled. *)
Definition add_int (a : JsNumber) (z : Z) : JsNumber :=
  match a with
  | Finite q => Finite (q + inject_Z z)
  | other => other
  end.

(** [Number.isInteger(n)] *)
Definition isInteger (n : JsNumber) : bool :=
  match n with
  | Finite q => Pos.eqb (Qden (Qred q)) 1
  | _ => false
  end.

(** The integer a finite number truncates to (rounding toward zero). *)
Definition trunc (q : Q) : Z := Z.quot (Qnum q) (Z.pos (Qden q)).

(** The index [Array.prototype.splice] starts at, for an array of [len]
    elements and a [start] argument [n]: [ToIntegerOrInfinity], then a
    negative value counts from the end, and the result is clamped to
    [0 .. len]. *)
Definition splice_start (len : nat) (n : JsNumber) : nat :=
  match n with
  | NaN => 0%nat
  | Infinity true => 0%nat
  | Infinity false => len
  | Finite q =>
      let r := trunc q in
      if r <? 0 then Z.to_nat (Z.max (Z.of_nat len + r) 0)
      else Z.to_nat (Z.min r (Z.of_nat len))
  end.

End Num.

(** [l[i]] for an integer index: [undefined] outside the array. *)
Definition js_index {A : Type} (l : list A) (i : Z) : option A :=
  if i <? 0 then None else l !! Z.to_nat i.

(** ** Songs *)

Definition Member := string.
Definition Metadata := string.

(** The fields of a [Song] the queue reads or writes. [stream.song] is the
    underlying song of a song that does not play from its own source. *)
Inductive Song : Type :=
  mkSong {
    id : string;
    metadata : option Metadata;
    member : option Member;
    playFromSource : bool;
    stream_song : option Song
  }.

Definition set_metadata (m : option Metadata) (s : Song) : Song :=
  mkSong (id s) m (member s) (playFromSource s) (stream_song s).

Definition set_member (m : option Member) (s : Song) : Song :=
  mkSong (id s) (metadata s) m (playFromSource s) (stream_song s).

(** [({ id: s.id }) as Song]: only the identifier is kept; history entries
    are only ever read through [p.id]. *)
Definition stub (s : Song) : Song := mkSong (id s) None None true None.

(** The [song] argument of [addToQueue]: a song, an array of songs, or a
    falsy value. *)
Inductive SongArg : Type :=
| ArgFalsy
| ArgSong (s : Song)
| ArgArray (l : list Song).

(** ** Errors *)

Inductive DisTubeError : Type :=
| QUEUE_STOPPED
| INVALID_TYPE
| PAUSED
| RESUMED
| NO_UP_NEXT
| NO_PREVIOUS
| NO_SONG_POSITION
| DISABLED_OPTION
| NO_PLAYING_SONG
| NO_RELATED
| NUMBER_COMPARE.

(** ** Repeat modes *)

(** Modelled from the spec: the declaration of the [RepeatMode] enum is not
    in [Queue.ts]. The code adds [1] to a mode, compares it with the literal
    [2] and takes [Object.values(RepeatMode)]: the enum is a numeric
    TypeScript enum that exists at run time. The spec gives its members and
    their ordinals, DISABLED=0, SONG=1, QUEUE=2. The object of such an enum
    maps every member name to its number and every number back to its name,
    so its values are the three numbers and the three names. *)
Inductive ModeName : Type := NameDISABLED | NameSONG | NameQUEUE.

Definition mode_name (name : ModeName) : string :=
  match name with
  | NameDISABLED => "DISABLED"
  | NameSONG => "SONG"
  | NameQUEUE => "QUEUE"
  end.

Definition mode_of_name (s : string) : option ModeName :=
  if String.eqb s "DISABLED" then Some NameDISABLED
  else if String.eqb s "SONG" then Some NameSONG
  else if String.eqb s "QUEUE" then Some NameQUEUE
  else None.

(** What the field [repeatMode] can hold at run time: a number, the name of
    a member (a string that passed the check of [setRepeatMode]) or the
    [NaN] that the arithmetic of [setRepeatMode] makes of such a string. *)
Inductive RepeatMode : Type :=
| Ordinal (z : Z)
| Named (name : ModeName)
| NotANumber.

Module RepeatModes.
Definition DISABLED : RepeatMode := Ordinal 0.
Definition SONG : RepeatMode := Ordinal 1.
Definition QUEUE : RepeatMode := Ordinal 2.
End RepeatModes.
Import RepeatModes.

(** [Object.values(RepeatMode).includes(v)], with the value found: the
    numbers 0, 1, 2 and the strings "DISABLED", "SONG", "QUEUE". *)
Definition RepeatMode_of_value (v : JsValue) : option RepeatMode :=
  match v with
  | JsNum (Finite q) =>
      if Qeq_bool q 0 then Some DISABLED
      else if Qeq_bool q 1 then Some SONG
      else if Qeq_bool q 2 then Some QUEUE
      else None
  | JsString s => Named <$> mode_of_name s
  | _ => None
  end.

(** [a === b] on what the field can hold: [NaN] equals nothing, a string
    never equals a number. *)
Definition mode_eq (a b : RepeatMode) : bool :=
  match a, b with
  | Ordinal x, Ordinal y => x =? y
  | Named m, Named n => String.eqb (mode_name m) (mode_name n)
  | _, _ => false
  end.

(** [(mode + 1) % 3]: the remainder keeps the sign of the dividend; on a
    string [+] appends, and the remainder of "SONG1" and the like is
    [NaN], as is that of [NaN + 1]. *)
Definition next_mode (mode : RepeatMode) : RepeatMode :=
  match mode with
  | Ordinal z => Ordinal (Z.rem (z + 1) 3)
  | Named _ | NotANumber => NotANumber
  end.

(** ** The queue *)

Record Queue : Type :=
  mkQueue {
    songs : list Song;
    previousSongs : list Song;
    stopped : bool;
    playing : bool;
    paused : bool;
    repeatMode : RepeatMode;
    autoplay : bool;
    _beginTime : JsNumber;
    _next : bool;
    _prev : bool;
    (** names of the voice events listened to, when [_listeners] is set *)
    _listeners : option (list string);
    (** [this.options.savePreviousSongs] *)
    savePreviousSongs : bool;
    (** [this.clientMember] *)
    clientMember : option Member
  }.

Definition set_songs (v : list Song) (q : Queue) : Queue :=
  mkQueue v (previousSongs q) (stopped q) (playing q) (paused q)
    (repeatMode q) (autoplay q) (_beginTime q) (_next q) (_prev q)
    (_listeners q) (savePreviousSongs q) (clientMember q).
Definition set_previousSongs (v : list Song) (q : Queue) : Queue :=
  mkQueue (songs q) v (stopped q) (playing q) (paused q)
    (repeatMode q) (autoplay q) (_beginTime q) (_next q) (_prev q)
    (_listeners q) (savePreviousSongs q) (clientMember q).
Definition set_stopped (v : bool) (q : Queue) : Queue :=
  mkQueue (songs q) (previousSongs q) v (playing q) (paused q)
    (repeatMode q) (autoplay q) (_beginTime q) (_next q) (_prev q)
    (_listeners q) (savePreviousSongs q) (clientMember q).
Definition set_playing (v : bool) (q : Queue) : Queue :=
  mkQueue (songs q) (previousSongs q) (stopped q) v (paused q)
    (repeatMode q) (autoplay q) (_beginTime q) (_next q) (_prev q)
    (_listeners q) (savePreviousSongs q) (clientMember q).
Definition set_paused (v : bool) (q : Queue) : Queue :=
  mkQueue (songs q) (previousSongs q) (stopped q) (playing q) v
    (repeatMode q) (autoplay q) (_beginTime q) (_next q) (_prev q)
    (_listeners q) (savePreviousSongs q) (clientMember q).
Definition set_repeatMode (v : RepeatMode) (q : Queue) : Queue :=
  mkQueue (songs q) (previousSongs q) (stopped q) (playing q) (paused q)
    v (autoplay q) (_beginTime q) (_next q) (_prev q)
    (_listeners q) (savePreviousSongs q) (clientMember q).
Definition set_autoplay (v : bool) (q : Queue) : Queue :=
  mkQueue (songs q) (previousSongs q) (stopped q) (playing q) (paused q)
    (repeatMode q) v (_beginTime q) (_next q) (_prev q)
    (_listeners q) (savePreviousSongs q) (clientMember q).
Definition set_beginTime (v : JsNumber) (q : Queue) : Queue :=
  mkQueue (songs q) (previousSongs q) (stopped q) (playing q) (paused q)
    (repeatMode q) (autoplay q) v (_next q) (_prev q)
    (_listeners q) (savePreviousSongs q) (clientMember q).
Definition set_next (v : bool) (q : Queue) : Queue :=
  mkQueue (songs q) (previousSongs q) (stopped q) (playing q) (paused q)
    (repeatMode q) (autoplay q) (_beginTime q) v (_prev q)
    (_listeners q) (savePreviousSongs q) (clientMember q).
Definition set_prev (v : bool) (q : Queue) : Queue :=
  mkQueue (songs q) (previousSongs q) (stopped q) (playing q) (paused q)
    (repeatMode q) (autoplay q) (_beginTime q) (_next q) v
    (_listeners q) (savePreviousSongs q) (clientMember q).

(** The state the constructor leaves. *)
Definition new_queue (save : bool) (me : option Member) : Queue :=
  mkQueue [] [] false false false DISABLED false (num_of_Z 0) false false
    None save me.

(** ** Effects and programs *)

(** Calls on the voice connection: [stop()], [pause()], [unpause()] and
    [off(event, listener)]. *)
Inductive VoiceCall : Type :=
| VoiceStop
| VoicePause
| VoiceUnpause
| VoiceOff (event : string).

(** Calls into the owning manager and the event emitter. *)
Inductive ManagerCall : Type :=
| PlaySong (emitPlaySong : bool)
| QueuesRemove
| EmitDeleteQueue.

(** What a method does besides computing. [Queuing] and [Related] are the
    [await]s at which a command is suspended: [await
    this._taskQueue.queuing()] and [await this.#getRelatedSong(song)]. *)
Inductive Eff : Type -> Type :=
| Queuing : Eff unit
| Resolve : Eff unit
| GetQ : Eff Queue
| PutQ (q : Queue) : Eff unit
| Voice (c : VoiceCall) : Eff unit
| Manager (c : ManagerCall) : Eff unit
| Related (s : Song) : Eff (list Song)
| Random (i : nat) : Eff nat.

Inductive Prog (A : Type) : Type :=
| Ret (a : A)
| Throw (e : DisTubeError)
| Vis {X : Type} (e : Eff X) (k : X -> Prog A).

Arguments Ret {A} a.
Arguments Throw {A} e.
Arguments Vis {A X} e k.

Fixpoint bind {A B : Type} (p : Prog A) (f : A -> Prog B) : Prog B :=
  match p with
  | Ret a => f a
  | Throw e => Throw e
  | Vis e k => Vis e (fun x => bind (k x) f)
  end.

(** [try { p } finally { f }] *)
Fixpoint try_finally {A : Type} (p : Prog A) (f : Prog unit) : Prog A :=
  match p with
  | Ret a => bind f (fun _ => Ret a)
  | Throw e => bind f (fun _ => Throw e)
  | Vis e k => Vis e (fun x => try_finally (k x) f)
  end.

Declare Scope prog_scope.
Delimit Scope prog_scope with prog.
Bind Scope prog_scope with Prog.

Notation "x <- p ;; k" := (bind p (fun x => k))
  (at level 20, p at level 99, k at level 200, only parsing) : prog_scope.
Notation "p ;; k" := (bind p (fun _ => k))
  (at level 100, k at level 200, only parsing, right associativity) : prog_scope.

Open Scope prog_scope.

Definition perform {X : Type} (e : Eff X) : Prog X := Vis e Ret.
Definition get : Prog Queue := perform GetQ.
Definition put (q : Queue) : Prog unit := perform (PutQ q).
Definition voice (c : VoiceCall) : Prog unit := perform (Voice c).
Definition manager (c : ManagerCall) : Prog unit := perform (Manager c).

(** [return this] *)
Definition this : Prog Queue := get.

(** [await this._taskQueue.queuing(); try { body } finally {
    this._taskQueue.resolve(); }] *)
Definition locked {A : Type} (body : Prog A) : Prog A :=
  perform Queuing ;; try_finally body (perform Resolve).

(** ** The methods of [Queue] *)

(** [song] as the list of songs to add; [None] when [!song ||
    (Array.isArray(song) && !song.length)]. *)
Definition songs_of_arg (song : SongArg) : option (list Song) :=
  match song with
  | ArgFalsy => None
  | ArgSong s => Some [s]
  | ArgArray [] => None
  | ArgArray l => Some l
  end.

(** [position = 0] as a default parameter, then [typeof position !==
    "number" || !Number.isInteger(position)]: the integer, or [None]. *)
Definition integer_of_position (position : JsValue) : option Z :=
  match position with
  | JsUndefined => Some 0
  | JsNum n =>
      if Num.isInteger n
      then match n with Finite q => Some (Num.trunc q) | _ => None end
      else None
  | _ => None
  end.

(** [l.splice(start, 0, ...items)] for a positive integer [start]. *)
Definition splice_insert {A : Type} (start : nat) (items l : list A) : list A :=
  take start l ++ items ++ drop start l.

Definition addToQueue (song : SongArg) (position : JsValue) : Prog Queue :=
  q <- get ;;
  if stopped q then Throw QUEUE_STOPPED else
  match songs_of_arg song with
  | None => Throw INVALID_TYPE
  | Some items =>
      match integer_of_position position with
      | None => Throw INVALID_TYPE
      | Some pos =>
          (if pos <=? 0
           then put (set_songs (songs q ++ items) q)
           else put (set_songs (splice_insert (Z.to_nat pos) items (songs q)) q)) ;;
          this
      end
  end.

Definition isPlaying : Prog bool := q <- get ;; Ret (playing q).
Definition isPaused : Prog bool := q <- get ;; Ret (paused q).

Definition pause : Prog Queue :=
  locked (
    q <- get ;;
    if paused q then Throw PAUSED else
    put (set_paused true q) ;;
    voice VoicePause ;;
    this).

Definition resume : Prog Queue :=
  locked (
    q <- get ;;
    if negb (paused q) then Throw RESUMED else
    put (set_paused false q) ;;
    voice VoiceUnpause ;;
    this).

(** [#getRelatedSong(current)]: the plugin of the song and its answer, an
    empty array when the song has no plugin. *)
Definition getRelatedSong (current : Song) : Prog (list Song) :=
  perform (Related current).

Definition not_in_history (prevIds : list string) (l : list Song) : list Song :=
  filter (fun s => id s ∉ prevIds) l.

Definition addRelatedSong : Prog Song :=
  q <- get ;;
  match songs q !! 0%nat with
  | None => Throw NO_PLAYING_SONG
  | Some current =>
      let prevIds := map id (previousSongs q) in
      found <- getRelatedSong current ;;
      let relatedSongs := not_in_history prevIds found in
      relatedSongs <-
        (if (length relatedSongs =? 0)%nat && negb (playFromSource current)
         then match stream_song current with
              | Some altSong =>
                  found' <- getRelatedSong altSong ;;
                  Ret (relatedSongs ++ not_in_history prevIds found')
              | None => Ret relatedSongs
              end
         else Ret relatedSongs) ;;
      match relatedSongs !! 0%nat with
      | None => Throw NO_RELATED
      | Some song =>
          q' <- get ;;
          let song := set_member (clientMember q')
                        (set_metadata (metadata current) song) in
          addToQueue (ArgSong song) JsUndefined ;;
          Ret song
      end
  end.

Definition skip : Prog (option Song) :=
  locked (
    q <- get ;;
    (if (length (songs q) <=? 1)%nat
     then if autoplay q then addRelatedSong ;; Ret tt else Throw NO_UP_NEXT
     else Ret tt) ;;
    q <- get ;;
    let song := songs q !! 1%nat in
    put (set_next true q) ;;
    voice VoiceStop ;;
    Ret song).

Definition previous : Prog (option Song) :=
  locked (
    q <- get ;;
    if negb (savePreviousSongs q) then Throw DISABLED_OPTION else
    if (length (previousSongs q) =? 0)%nat && negb (mode_eq (repeatMode q) QUEUE)
    then Throw NO_PREVIOUS else
    let song :=
      if mode_eq (repeatMode q) (Ordinal 2)
      then js_index (songs q) (Z.of_nat (length (songs q)) - 1)
      else js_index (previousSongs q) (Z.of_nat (length (previousSongs q)) - 1) in
    put (set_prev true q) ;;
    voice VoiceStop ;;
    Ret song).

(** [[l[i], l[j]] = [l[j], l[i]]] *)
Definition swap {A : Type} (i j : nat) (l : list A) : list A :=
  match l !! j, l !! i with
  | Some x, Some y => <[j:=y]> (<[i:=x]> l)
  | _, _ => l
  end.

(** [for (; i > 0; i--) { const j = Math.floor(Math.random() * (i + 1));
    swap }] *)
Fixpoint shuffle_loop (i : nat) : Prog unit :=
  match i with
  | O => Ret tt
  | S i' =>
      j <- perform (Random i) ;;
      q <- get ;;
      put (set_songs (swap i j (songs q)) q) ;;
      shuffle_loop i'
  end.

Definition shuffle : Prog Queue :=
  locked (
    q <- get ;;
    match songs q with
    | [] => this
    | playing :: rest =>
        put (set_songs rest q) ;;
        shuffle_loop (length rest - 1) ;;
        q <- get ;;
        put (set_songs (playing :: songs q) q) ;;
        this
    end).

Definition jump (position : JsValue) : Prog (option Song) :=
  locked (
    match position with
    | JsNum position =>
        q <- get ;;
        if Num.falsy position
           || Num.gt position (num_of_nat (length (songs q)))
           || Num.gt (Num.neg position) (num_of_nat (length (previousSongs q)))
        then Throw NO_SONG_POSITION else
        if Num.gt position (num_of_Z 0) then
          let start :=
            Num.splice_start (length (songs q)) (Num.add_int position (-1)) in
          let nextSongs := drop start (songs q) in
          let left := take start (songs q) in
          let history := if savePreviousSongs q then left else map stub left in
          put (set_next true
                 (set_songs nextSongs
                    (set_previousSongs (previousSongs q ++ history) q))) ;;
          voice VoiceStop ;;
          Ret (nextSongs !! 1%nat)
        else if negb (savePreviousSongs q) then Throw DISABLED_OPTION
        else
          let q1 := set_prev true q in
          let q2 :=
            if negb (Num.eq position (num_of_Z (-1))) then
              let start :=
                Num.splice_start (length (previousSongs q1))
                  (Num.add_int position 1) in
              set_songs (drop start (previousSongs q1) ++ songs q1)
                (set_previousSongs (take start (previousSongs q1)) q1)
            else q1 in
          put q2 ;;
          voice VoiceStop ;;
          Ret (js_index (previousSongs q2)
                 (Z.of_nat (length (previousSongs q2)) - 1))
    | _ => Throw INVALID_TYPE
    end).

Definition setRepeatMode (mode : JsValue) : Prog RepeatMode :=
  match mode, RepeatMode_of_value mode with
  | JsUndefined, _ =>
      q <- get ;;
      put (set_repeatMode (next_mode (repeatMode q)) q) ;;
      q <- get ;;
      Ret (repeatMode q)
  | _, None => Throw INVALID_TYPE
  | _, Some mode =>
      q <- get ;;
      put (set_repeatMode
             (if mode_eq (repeatMode q) mode then DISABLED else mode) q) ;;
      q <- get ;;
      Ret (repeatMode q)
  end.

Definition play (emitPlaySong : bool) : Prog unit :=
  q <- get ;;
  if stopped q then Throw QUEUE_STOPPED else
  put (set_playing true q) ;;
  manager (PlaySong emitPlaySong).

Definition seek (time : JsValue) : Prog Queue :=
  match time with
  | JsNum time =>
      if Num.isNaN time || Num.lt time (num_of_Z 0) then Throw NUMBER_COMPARE else
      q <- get ;;
      put (set_beginTime time q) ;;
      play false ;;
      this
  | _ => Throw INVALID_TYPE
  end.

Fixpoint voice_off_all (events : list string) : Prog unit :=
  match events with
  | [] => Ret tt
  | event :: rest => voice (VoiceOff event) ;; voice_off_all rest
  end.

Definition remove : Prog unit :=
  q <- get ;;
  put (set_previousSongs []
         (set_songs []
            (set_stopped true (set_paused false (set_playing false q))))) ;;
  match _listeners q with
  | Some events => voice_off_all events
  | None => Ret tt
  end ;;
  manager QueuesRemove ;;
  manager EmitDeleteQueue.

Definition stop : Prog unit :=
  locked (voice VoiceStop ;; remove).

Definition toggleAutoplay : Prog bool :=
  q <- get ;;
  put (set_autoplay (negb (autoplay q)) q) ;;
  q <- get ;;
  Ret (autoplay q).

(** ** Running one command to completion *)

Inductive Event : Type :=
| EvQueuing
| EvResolve
| EvGet
| EvPut
| EvVoice (c : VoiceCall)
| EvManager (c : ManagerCall)
| EvRelated (s : Song)
| EvRandom (i j : nat).

Inductive Outcome (A : Type) : Type :=
| Returned (a : A)
| Thrown (e : DisTubeError).

Arguments Returned {A} a.
Arguments Thrown {A} e.

(** What a command runs in: the queue, the numbers [Math.random] is still to
    give, and the related songs the plugins answer with. *)
Record World : Type :=
  mkWorld {
    w_queue : Queue;
    w_entropy : list nat;
    w_related : Song -> list Song
  }.

Definition with_queue (q : Queue) (w : World) : World :=
  mkWorld q (w_entropy w) (w_related w).

(** [Math.floor(Math.random() * (i + 1))] is an integer of [0 .. i]: the
    next number of the entropy, reduced modulo [i + 1]. *)
Definition draw (i : nat) (w : World) : nat * World :=
  match w_entropy w with
  | [] => (0%nat, w)
  | r :: rest => (r mod (S i), mkWorld (w_queue w) rest (w_related w))%nat
  end.

(** With no other command in flight the ticket of [queuing()] is admitted
    at once. *)
Definition handle {X : Type} (e : Eff X) (w : World) : X * World * Event :=
  match e in Eff X return X * World * Event with
  | Queuing => (tt, w, EvQueuing)
  | Resolve => (tt, w, EvResolve)
  | GetQ => (w_queue w, w, EvGet)
  | PutQ q => (tt, with_queue q w, EvPut)
  | Voice c => (tt, w, EvVoice c)
  | Manager c => (tt, w, EvManager c)
  | Related s => (w_related w s, w, EvRelated s)
  | Random i => let '(j, w') := draw i w in (j, w', EvRandom i j)
  end.

Fixpoint run {A : Type} (p : Prog A) (w : World)
  : Outcome A * World * list Event :=
  match p with
  | Ret a => (Returned a, w, [])
  | Throw e => (Thrown e, w, [])
  | Vis e k =>
      let '(x, w', ev) := handle e w in
      let '(r, w'', evs) := run (k x) w' in
      (r, w'', ev :: evs)
  end.

Definition result {A : Type} (p : Prog A) (w : World) : Outcome A :=
  (run p w).1.1.
Definition after {A : Type} (p : Prog A) (w : World) : World :=
  (run p w).1.2.
Definition final {A : Type} (p : Prog A) (w : World) : Queue :=
  w_queue (after p w).
Definition events {A : Type} (p : Prog A) (w : World) : list Event :=
  (run p w).2.

(** ** Commands in flight *)

(** Modelled from the spec: the class [TaskQueue] behind [_taskQueue] is
    not in [Queue.ts]. The spec describes it as an ordered list of pending
    admission tickets, one per queued caller, admitted strictly in arrival
    order: [queuing()] appends a ticket and its promise resolves once every
    earlier ticket has been released; [resolve()] releases the active
    ticket, the oldest one, and so admits the next. A ticket is named by the
    command that took it. *)
Module TaskQueue.

Definition t : Type := list nat.

Definition empty : t := [].

Definition queuing (ticket : nat) (tq : t) : t := tq ++ [ticket].

Definition granted (ticket : nat) (tq : t) : bool :=
  bool_decide (head tq = Some ticket).

Definition resolve (tq : t) : t := tail tq.

End TaskQueue.

(** The mutating commands of a queue. *)
Inductive Command : Type :=
| CmdAddToQueue (song : SongArg) (position : JsValue)
| CmdPause
| CmdResume
| CmdSkip
| CmdPrevious
| CmdShuffle
| CmdJump (position : JsValue)
| CmdSetRepeatMode (mode : JsValue)
| CmdSeek (time : JsValue)
| CmdStop.

Definition Returns (c : Command) : Type :=
  match c with
  | CmdAddToQueue _ _ | CmdPause | CmdResume | CmdShuffle | CmdSeek _ => Queue
  | CmdSkip | CmdPrevious | CmdJump _ => option Song
  | CmdSetRepeatMode _ => RepeatMode
  | CmdStop => unit
  end.

Definition program (c : Command) : Prog (Returns c) :=
  match c with
  | CmdAddToQueue song position => addToQueue song position
  | CmdPause => pause
  | CmdResume => resume
  | CmdSkip => skip
  | CmdPrevious => previous
  | CmdShuffle => shuffle
  | CmdJump position => jump position
  | CmdSetRepeatMode mode => setRepeatMode mode
  | CmdSeek time => seek time
  | CmdStop => stop
  end.

(** The methods declared [async]: they go through [_taskQueue]. *)
Definition is_async (c : Command) : bool :=
  match c with
  | CmdAddToQueue _ _ | CmdSetRepeatMode _ | CmdSeek _ => false
  | _ => true
  end.

(** A command that was issued: suspended at [await queuing()], suspended at
    [await #getRelatedSong(s)], or over. *)
Inductive Task : Type :=
| Waiting {A : Type} (k : unit -> Prog A)
| Fetching {A : Type} (s : Song) (k : list Song -> Prog A)
| Finished {A : Type} (r : Outcome A).

(** What the log records: command [n] admitted by the task queue, and what
    command [n] did. *)
Inductive Entry : Type :=
| Granted (n : nat)
| Did (n : nat) (ev : Event).

Record System : Type :=
  mkSystem {
    sys_queue : Queue;
    sys_tickets : TaskQueue.t;
    sys_entropy : list nat;
    sys_log : list Entry;
    sys_tasks : list Task
  }.

Definition logged (e : Entry) (s : System) : System :=
  mkSystem (sys_queue s) (sys_tickets s) (sys_entropy s) (sys_log s ++ [e])
    (sys_tasks s).

Definition with_tasks (tasks : list Task) (s : System) : System :=
  mkSystem (sys_queue s) (sys_tickets s) (sys_entropy s) (sys_log s) tasks.

(** One effect of command [n]: either its answer and the system after it,
    or, at an [await], the system and the way the command is parked. *)
Definition react {X A : Type} (n : nat) (e : Eff X) (s : System)
  : (X * System) + (System * ((X -> Prog A) -> Task)) :=
  match e in Eff X
        return (X * System) + (System * ((X -> Prog A) -> Task)) with
  | Queuing =>
      inr (mkSystem (sys_queue s) (TaskQueue.queuing n (sys_tickets s))
             (sys_entropy s) (sys_log s ++ [Did n EvQueuing]) (sys_tasks s),
           fun k => Waiting k)
  | Related song =>
      inr (logged (Did n (EvRelated song)) s, fun k => Fetching song k)
  | Resolve =>
      inl (tt,
           mkSystem (sys_queue s) (TaskQueue.resolve (sys_tickets s))
             (sys_entropy s) (sys_log s ++ [Did n EvResolve]) (sys_tasks s))
  | GetQ => inl (sys_queue s, logged (Did n EvGet) s)
  | PutQ q =>
      inl (tt,
           mkSystem q (sys_tickets s) (sys_entropy s)
             (sys_log s ++ [Did n EvPut]) (sys_tasks s))
  | Voice c => inl (tt, logged (Did n (EvVoice c)) s)
  | Manager c => inl (tt, logged (Did n (EvManager c)) s)
  | Random i =>
      let j := match sys_entropy s with [] => 0%nat | r :: _ => (r mod S i)%nat end in
      inl (j,
           mkSystem (sys_queue s) (sys_tickets s) (tail (sys_entropy s))
             (sys_log s ++ [Did n (EvRandom i j)]) (sys_tasks s))
  end.

(** Command [n] runs from [p] until its next [await] or its end. *)
Fixpoint advance {A : Type} (n : nat) (p : Prog A) (s : System) : System * Task :=
  match p with
  | Ret a => (s, Finished (Returned a))
  | Throw e => (s, Finished (@Thrown A e))
  | Vis e k =>
      match react n e s with
      | inl (x, s') => advance n (k x) s'
      | inr (s', park) => (s', park k)
      end
  end.

Definition settle (n : nat) (r : System * Task) : System :=
  with_tasks (<[n := r.2]> (sys_tasks r.1)) r.1.

(** The turns of the event loop: a command is issued and runs to its first
    [await]; the task queue admits the command whose ticket is the oldest;
    a plugin answers a command that waits for related songs. *)
Inductive Turn : Type :=
| Issue (c : Command)
| Grant (n : nat)
| Answer (n : nat) (found : list Song).

(** A turn that cannot be taken gives [None]. *)
Definition turn (l : Turn) (s : System) : option System :=
  match l with
  | Issue c =>
      let r := advance (length (sys_tasks s)) (program c) s in
      Some (with_tasks (sys_tasks r.1 ++ [r.2]) r.1)
  | Grant n =>
      match sys_tasks s !! n with
      | Some (Waiting k) =>
          if TaskQueue.granted n (sys_tickets s)
          then Some (settle n (advance n (k tt) (logged (Granted n) s)))
          else None
      | _ => None
      end
  | Answer n found =>
      match sys_tasks s !! n with
      | Some (Fetching song k) => Some (settle n (advance n (k found) s))
      | _ => None
      end
  end.

Fixpoint turns (ls : list Turn) (s : System) : option System :=
  match ls with
  | [] => Some s
  | l :: rest =>
      match turn l s with
      | Some s' => turns rest s'
      | None => None
      end
  end.

Definition initial (q : Queue) (entropy : list nat) : System :=
  mkSystem q TaskQueue.empty entropy [] [].

(** Only [async] methods are issued. *)
Definition issues_async (l : Turn) : bool :=
  match l with
  | Issue c => is_async c
  | _ => true
  end.

(** Reading a log: who holds the queue, and how many commands were
    admitted so far. *)
Record Windows : Type :=
  mkWindows { holder : option nat; admissions : nat }.

(** An entry is in order when: an admission finds the queue free and
    admits the command issued next after the last one admitted; a release
    is by the holder; a read or write of the queue, a call to the voice
    connection, the manager or a plugin, a random draw, is by the holder;
    taking a ticket is always in order. *)
Definition observe (st : Windows) (e : Entry) : option Windows :=
  match e with
  | Granted n =>
      match holder st with
      | None =>
          if (n =? admissions st)%nat
          then Some (mkWindows (Some n) (S (admissions st)))
          else None
      | Some _ => None
      end
  | Did n EvQueuing => Some st
  | Did n EvResolve =>
      if bool_decide (holder st = Some n)
      then Some (mkWindows None (admissions st))
      else None
  | Did n _ => if bool_decide (holder st = Some n) then Some st else None
  end.

Fixpoint scan (st : Windows) (log : list Entry) : option Windows :=
  match log with
  | [] => Some st
  | e :: rest =>
      match observe st e with
      | Some st' => scan st' rest
      | None => None
      end
  end.

(** The windows of a log never overlap and come in issuance order. *)
Definition serial (log : list Entry) : Prop :=
  is_Some (scan (mkWindows None 0) log).

(** ** Shapes of programs *)

(** Effects other than taking and releasing the ticket. *)
Definition quiet_eff {X : Type} (e : Eff X) : bool :=
  match e with
  | Queuing | Resolve => false
  | _ => true
  end.

(** A program that never touches the task queue. *)
Inductive Quiet {A : Type} : Prog A -> Prop :=
| quiet_Ret (a : A) : Quiet (Ret a)
| quiet_Throw (e : DisTubeError) : Quiet (Throw e)
| quiet_Vis {X : Type} (e : Eff X) (k : X -> Prog A) :
    quiet_eff e = true -> (forall x, Quiet (k x)) -> Quiet (Vis e k).

Definition over {A : Type} (p : Prog A) : Prop :=
  match p with
  | Vis _ _ => False
  | _ => True
  end.

(** A program that, whatever the answers it gets, releases the ticket once,
    as its last effect, and does not take one. *)
Inductive Releases {A : Type} : Prog A -> Prop :=
| releases_now (k : unit -> Prog A) :
    (forall x, over (k x)) -> Releases (Vis Resolve k)
| releases_later {X : Type} (e : Eff X) (k : X -> Prog A) :
    quiet_eff e = true -> (forall x, Releases (k x)) -> Releases (Vis e k).

(** A program that first takes a ticket and, once admitted, releases it. *)
Definition Guarded {A : Type} (p : Prog A) : Prop :=
  exists k, p = Vis Queuing k /\ forall x, Releases (k x).

(** ** The invariant of the event loop *)

Definition task_waiting (t : Task) : Prop :=
  match t with
  | Waiting k => Releases (k tt)
  | _ => False
  end.

Definition task_fetching (t : Task) : Prop :=
  match t with
  | Fetching _ k => forall found, Releases (k found)
  | _ => False
  end.

Definition task_finished (t : Task) : Prop :=
  match t with
  | Finished _ => True
  | _ => False
  end.

(** With [released] commands over: the tickets are those of the commands
    issued since, in order; the oldest of them may hold the queue, parked
    at a plugin; the others wait for admission. *)
Record Inv (s : System) (released : nat) (st : Windows) : Prop :=
  mkInv {
    inv_scan : scan (mkWindows None 0) (sys_log s) = Some st;
    inv_tickets :
      sys_tickets s = seq released (length (sys_tasks s) - released);
    inv_released : (released <= length (sys_tasks s))%nat;
    inv_holder :
      holder st = None
      \/ (holder st = Some released /\ (released < length (sys_tasks s))%nat);
    inv_admissions :
      admissions st = match holder st with
                      | None => released
                      | Some _ => S released
                      end;
    inv_tasks :
      forall n t, sys_tasks s !! n = Some t ->
        if (n <? released)%nat then task_finished t
        else if (n =? released)%nat then
          match holder st with
          | Some _ => task_fetching t
          | None => task_waiting t
          end
        else task_waiting t
  }.

(** ** Vocabulary of the statements *)

(** The value [v] is the number of the repeat mode [m], or the string that
    names the member [m]. *)
Definition denotes (v : JsValue) (m : RepeatMode) : Prop :=
  match m with
  | Ordinal z => exists q, v = JsNum (Finite q) /\ (q == inject_Z z)%Q
  | Named name => v = JsString (mode_name name)
  | NotANumber => False
  end.

Definition is_mode (m : RepeatMode) : Prop :=
  m = DISABLED \/ m = SONG \/ m = QUEUE.

(** What the check of [setRepeatMode] lets through: a mode or the name of
    a member. *)
Definition accepted (m : RepeatMode) : Prop :=
  is_mode m \/ exists name, m = Named name.

(** The queue [remove()] leaves. *)
Definition removed (q : Queue) : Queue :=
  set_previousSongs []
    (set_songs [] (set_stopped true (set_paused false (set_playing false q)))).

(** The related songs to choose from, in the words of the specification:
    those of the current song that are not in the history and, when there
    are none and the current song stands for an underlying song, those of
    the underlying song that are not in the history. *)
Definition related_candidates (w : World) (current : Song) : list Song :=
  let prevIds := map id (previousSongs (w_queue w)) in
  match not_in_history prevIds (w_related w current) with
  | s :: l => s :: l
  | [] =>
      if playFromSource current then []
      else match stream_song current with
           | Some altSong => not_in_history prevIds (w_related w altSong)
           | None => []
           end
  end.

(** The related song as it is added: the metadata of the current song and
    the client member of the queue. *)
Definition adopted (q : Queue) (current s : Song) : Song :=
  set_member (clientMember q) (set_metadata (metadata current) s).

(** A queue playing a song requested by a user, with the bot as client
    member, and a plugin that relates one song to every song. *)
Definition requested_song : Song :=
  mkSong "a" (Some "request 7") (Some "alice") true None.

Definition requested_queue : Queue :=
  set_songs [requested_song] (new_queue true (Some "bot")).

Definition related_world (q : Queue) : World :=
  mkWorld q [] (fun _ => [mkSong "r" None None true None]).

(** The ways [addRelatedSong] can end, with the world it leaves. *)
Inductive RelatedCase (w : World) : Outcome Song * World -> Prop :=
| related_nothing_playing :
    songs (w_queue w) = [] ->
    RelatedCase w (Thrown NO_PLAYING_SONG, w)
| related_none current rest :
    songs (w_queue w) = current :: rest ->
    related_candidates w current = [] ->
    RelatedCase w (Thrown NO_RELATED, w)
| related_stopped current rest s l :
    songs (w_queue w) = current :: rest ->
    related_candidates w current = s :: l ->
    stopped (w_queue w) = true ->
    RelatedCase w (Thrown QUEUE_STOPPED, w)
| related_added current rest s l :
    songs (w_queue w) = current :: rest ->
    related_candidates w current = s :: l ->
    stopped (w_queue w) = false ->
    let q := w_queue w in
    let s' := adopted q current s in
    RelatedCase w (Returned s', with_queue (set_songs (songs q ++ [s']) q) w).

(** Concrete songs, queues and worlds for the examples. *)
Definition song_of (name : string) : Song := mkSong name None None true None.

Definition queue_of (names : list string) : Queue :=
  set_songs (map song_of names) (new_queue true (Some "bot")).

Definition world_of (q : Queue) : World := mkWorld q [] (fun _ => []).

(** A stopped queue holds no song, playing or played. *)
Definition stopped_is_empty (q : Queue) : Prop :=
  stopped q = true -> songs q = [] /\ previousSongs q = [].

(** The loop of [shuffle] as a function of the list and of the numbers
    [Math.random] gives: from [i] down to [1], swap the element of index
    [i] with the one of the index drawn in [0 .. i]. *)
Fixpoint fisher_yates {A : Type} (i : nat) (entropy : list nat) (l : list A)
  : list A :=
  match i with
  | O => l
  | S i' =>
      let j := match entropy with
               | [] => 0%nat
               | r :: _ => (r mod S i)%nat
               end in
      fisher_yates i' (tail entropy) (swap i j l)
  end.

(** The calls to the voice connection among the events of a command. *)
Definition voice_calls (evs : list Event) : list VoiceCall :=
  omap (fun ev => match ev with EvVoice c => Some c | _ => None end) evs.

(** The calls that act on the playback: [stop()], [pause()] and
    [unpause()], not [off(event, listener)]. *)
Definition acts_on_playback (c : VoiceCall) : bool :=
  match c with
  | VoiceOff _ => false
  | _ => true
  end.

(** The queue [q] with listeners set on the voice events [events]. *)
Definition listening (events : list string) (q : Queue) : Queue :=
  mkQueue (songs q) (previousSongs q) (stopped q) (playing q) (paused q)
    (repeatMode q) (autoplay q) (_beginTime q) (_next q) (_prev q)
    (Some events) (savePreviousSongs q) (clientMember q).

(** The value [v], as a [position] argument, is the integer [z]: it is
    left out (the default [0]) or it is a number equal to [z]. *)
Definition position_is (v : JsValue) (z : Z) : Prop :=
  (v = JsUndefined /\ z = 0)
  \/ exists q, v = JsNum (Finite q) /\ (q == inject_Z z)%Q.

(** The world after a sequence of commands, each run to its end. *)
Fixpoint after_all (cs : list Command) (w : World) : World :=
  match cs with
  | [] => w
  | c :: rest => after_all rest (after (program c) w)
  end.

(** A turn of the loop itself, that issues no command. *)
Definition issues_nothing (l : Turn) : bool :=
  match l with
  | Issue _ => false
  | _ => true
  end.

(** ** Programs and the voice connection *)

Definition is_voice {X : Type} (e : Eff X) : bool :=
  match e with
  | Voice _ => true
  | _ => false
  end.

(** A program that never calls the voice connection. *)
Inductive Silent {A : Type} : Prog A -> Prop :=
| silent_Ret (a : A) : Silent (Ret a)
| silent_Throw (e : DisTubeError) : Silent (Throw e)
| silent_Vis {X : Type} (e : Eff X) (k : X -> Prog A) :
    is_voice e = false -> (forall x, Silent (k x)) -> Silent (Vis e k).

(** A program that never calls the voice connection and never throws. *)
Inductive Calm {A : Type} : Prog A -> Prop :=
| calm_Ret (a : A) : Calm (Ret a)
| calm_Vis {X : Type} (e : Eff X) (k : X -> Prog A) :
    is_voice e = false -> (forall x, Calm (k x)) -> Calm (Vis e k).

(** A program that calls the voice connection at most once, and after the
    call neither calls it again nor throws. *)
Inductive OneCall {A : Type} : Prog A -> Prop :=
| onecall_Ret (a : A) : OneCall (Ret a)
| onecall_Throw (e : DisTubeError) : OneCall (Throw e)
| onecall_Voice (c : VoiceCall) (k : unit -> Prog A) :
    (forall x, Calm (k x)) -> OneCall (Vis (Voice c) k)
| onecall_Vis {X : Type} (e : Eff X) (k : X -> Prog A) :
    is_voice e = false -> (forall x, OneCall (k x)) -> OneCall (Vis e k).

(** * Properties *)

(** ** The interpreter and the monad's combinators *)

Lemma run_bind {A B : Type} (p : Prog A) (f : A -> Prog B) (w : World) :
  run (bind p f) w =
  match run p w with
  | (Returned a, w', evs) =>
      let '(r, w'', evs') := run (f a) w' in (r, w'', evs ++ evs')
  | (Thrown e, w', evs) => (Thrown e, w', evs)
  end.
Proof.
  revert w. induction p as [a | e | X e k IH]; intros w; simpl.
  - destruct (run (f a) w) as [[r w''] evs']. reflexivity.
  - reflexivity.
  - destruct (handle e w) as [[x w'] ev]. rewrite IH.
    destruct (run (k x) w') as [[[a | err] w''] evs]; [|reflexivity].
    destruct (run (f a) w'') as [[r w3] evs']. reflexivity.
Qed.

Lemma run_try_finally {A : Type} (p : Prog A) (f : Prog unit) (w : World) :
  run (try_finally p f) w =
  let '(r, w', evs) := run p w in
  match run f w' with
  | (Returned _, w'', evs') => (r, w'', evs ++ evs')
  | (Thrown e, w'', evs') => (Thrown e, w'', evs ++ evs')
  end.
Proof.
  revert w. induction p as [a | e | X e k IH]; intros w; simpl.
  - rewrite run_bind.
    destruct (run f w) as [[[[] | err] w'] evs]; simpl;
      rewrite ?app_nil_r; reflexivity.
  - rewrite run_bind.
    destruct (run f w) as [[[[] | err] w'] evs]; simpl;
      rewrite ?app_nil_r; reflexivity.
  - destruct (handle e w) as [[x w'] ev]. rewrite IH.
    destruct (run (k x) w') as [[r w''] evs].
    destruct (run f w'') as [[[[] | err] w3] evs']; reflexivity.
Qed.

(** A locked command is its body between one [queuing()] and one
    [resolve()], whatever way the body ends. *)
Lemma run_locked {A : Type} (body : Prog A) (w : World) :
  run (locked body) w =
  let '(r, w', evs) := run body w in (r, w', EvQueuing :: evs ++ [EvResolve]).
Proof.
  unfold locked. rewrite run_bind. simpl. rewrite run_try_finally.
  destruct (run body w) as [[r w'] evs]. reflexivity.
Qed.

(** ** [toggleAutoplay] *)

(** C9: [toggleAutoplay] succeeds in every state, also on a stopped queue;
    it returns the negated flag and stores it, leaving every other field;
    a second call brings the queue back to what it was. *)
Theorem toggleAutoplay_involution (w : World) :
  let q := w_queue w in
  result toggleAutoplay w = Returned (negb (autoplay q))
  /\ final toggleAutoplay w = set_autoplay (negb (autoplay q)) q
  /\ result toggleAutoplay (after toggleAutoplay w) = Returned (autoplay q)
  /\ final toggleAutoplay (after toggleAutoplay w) = q.
Proof.
  destruct w as [q ent rel]. destruct q. cbn.
  rewrite Bool.negb_involutive. repeat split; reflexivity.
Qed.

(** ** [setRepeatMode] *)

Lemma mode_eq_true (a b : RepeatMode) : mode_eq a b = true -> a = b.
Proof.
  destruct a as [x | m |], b as [y | n |]; cbn; try discriminate.
  - intros E. apply Z.eqb_eq in E. congruence.
  - destruct m, n; cbn; (reflexivity || discriminate).
Qed.

Lemma mode_eq_refl (a : RepeatMode) : a <> NotANumber -> mode_eq a a = true.
Proof.
  destruct a as [x | m |]; cbn; intros H.
  - apply Z.eqb_refl.
  - apply String.eqb_refl.
  - congruence.
Qed.

Lemma mode_eq_false (a b : RepeatMode) : a <> b -> mode_eq a b = false.
Proof.
  intros H. destruct (mode_eq a b) eqn:E; [|reflexivity].
  apply mode_eq_true in E. congruence.
Qed.

Lemma accepted_defined (m : RepeatMode) : accepted m -> m <> NotANumber.
Proof.
  intros [[-> | [-> | ->]] | [name ->]]; discriminate.
Qed.

Lemma mode_of_name_name (name : ModeName) :
  mode_of_name (mode_name name) = Some name.
Proof. destruct name; reflexivity. Qed.

Lemma mode_of_name_Some (s : string) (name : ModeName) :
  mode_of_name s = Some name -> s = mode_name name.
Proof.
  unfold mode_of_name.
  destruct (String.eqb s "DISABLED") eqn:E0.
  { apply String.eqb_eq in E0. intros [= <-]. exact E0. }
  destruct (String.eqb s "SONG") eqn:E1.
  { apply String.eqb_eq in E1. intros [= <-]. exact E1. }
  destruct (String.eqb s "QUEUE") eqn:E2.
  { apply String.eqb_eq in E2. intros [= <-]. exact E2. }
  discriminate.
Qed.

Lemma RepeatMode_of_value_Some (v : JsValue) (m : RepeatMode) :
  accepted m -> denotes v m -> RepeatMode_of_value v = Some m.
Proof.
  intros [Hm | [name ->]] Hv.
  - assert (exists z, m = Ordinal z) as [z ->]
      by (destruct Hm as [-> | [-> | ->]]; eexists; reflexivity).
    destruct Hv as (q & -> & Hq). simpl.
    destruct Hm as [[= ->] | [[= ->] | [= ->]]].
    + assert (Qeq_bool q 0 = true) as -> by (apply Qeq_bool_iff; exact Hq).
      reflexivity.
    + destruct (Qeq_bool q 0) eqn:E0.
      { apply Qeq_bool_iff in E0. rewrite Hq in E0. discriminate. }
      assert (Qeq_bool q 1 = true) as -> by (apply Qeq_bool_iff; exact Hq).
      reflexivity.
    + destruct (Qeq_bool q 0) eqn:E0.
      { apply Qeq_bool_iff in E0. rewrite Hq in E0. discriminate. }
      destruct (Qeq_bool q 1) eqn:E1.
      { apply Qeq_bool_iff in E1. rewrite Hq in E1. discriminate. }
      assert (Qeq_bool q 2 = true) as -> by (apply Qeq_bool_iff; exact Hq).
      reflexivity.
  - cbn in Hv. subst v. cbn. rewrite mode_of_name_name. reflexivity.
Qed.

Lemma RepeatMode_of_value_None (v : JsValue) :
  (forall m, accepted m -> ~ denotes v m) -> RepeatMode_of_value v = None.
Proof.
  intros H. destruct v as [| | b | s | [| neg | q]]; try reflexivity.
  - cbn. destruct (mode_of_name s) as [name |] eqn:E; [|reflexivity].
    exfalso. apply (H (Named name)); [right; exists name; reflexivity|].
    cbn. f_equal. apply mode_of_name_Some, E.
  - simpl.
    destruct (Qeq_bool q 0) eqn:E0.
    { exfalso. apply (H DISABLED); [left; left; reflexivity|].
      exists q. split; [reflexivity | apply Qeq_bool_iff, E0]. }
    destruct (Qeq_bool q 1) eqn:E1.
    { exfalso. apply (H SONG); [left; right; left; reflexivity|].
      exists q. split; [reflexivity | apply Qeq_bool_iff, E1]. }
    destruct (Qeq_bool q 2) eqn:E2.
    { exfalso. apply (H QUEUE); [left; right; right; reflexivity|].
      exists q. split; [reflexivity | apply Qeq_bool_iff, E2]. }
    reflexivity.
Qed.

Lemma denotes_defined (v : JsValue) (m : RepeatMode) :
  denotes v m -> v <> JsUndefined.
Proof.
  destruct m as [z | name |]; cbn.
  - intros (q & -> & _). discriminate.
  - intros ->. discriminate.
  - intros [].
Qed.

Lemma run_setRepeatMode_value (v : JsValue) (m : RepeatMode) (w : World) :
  v <> JsUndefined -> RepeatMode_of_value v = Some m ->
  let q := w_queue w in
  let stored := if mode_eq (repeatMode q) m then DISABLED else m in
  result (setRepeatMode v) w = Returned stored
  /\ final (setRepeatMode v) w = set_repeatMode stored q.
Proof.
  intros Hdef Hof. destruct w as [q ent rel].
  unfold result, final, after, setRepeatMode.
  destruct v; try congruence; rewrite Hof; cbn; split; reflexivity.
Qed.

(** C6 as stated fails on the name of a member of the enum: given the
    string "DISABLED", "SONG" or "QUEUE", which is none of the three modes,
    [setRepeatMode] does not throw INVALID_TYPE. The string passes the
    check; the method stores it (or DISABLED when the field already holds
    that string) and returns what it stored. When the field held one of the
    three modes, it holds the string afterwards, and the next
    [setRepeatMode()] without an argument stores and returns [NaN]. *)
Theorem setRepeatMode_accepts_member_name (w : World) (name : ModeName) :
  let q := w_queue w in
  let call := setRepeatMode (JsString (mode_name name)) in
  let stored :=
    if mode_eq (repeatMode q) (Named name) then DISABLED else Named name in
  result call w = Returned stored
  /\ final call w = set_repeatMode stored q
  /\ result call w <> Thrown INVALID_TYPE
  /\ (is_mode (repeatMode q) ->
      result call w = Returned (Named name)
      /\ repeatMode (final call w) = Named name
      /\ result (setRepeatMode JsUndefined) (after call w) = Returned NotANumber
      /\ repeatMode (final (setRepeatMode JsUndefined) (after call w))
         = NotANumber).
Proof.
  cbv zeta.
  destruct (run_setRepeatMode_value (JsString (mode_name name)) (Named name) w)
    as [Hres Hfin].
  { discriminate. }
  { cbn. rewrite mode_of_name_name. reflexivity. }
  cbv zeta in Hres, Hfin.
  split; [exact Hres|]. split; [exact Hfin|].
  split; [rewrite Hres; discriminate|].
  intros Hm.
  assert (mode_eq (repeatMode (w_queue w)) (Named name) = false) as E.
  { apply mode_eq_false. destruct Hm as [-> | [-> | ->]]; discriminate. }
  rewrite E in Hres, Hfin. rewrite Hres, Hfin.
  split; [reflexivity|]. split; [destruct (w_queue w); reflexivity|].
  destruct w as [q ent rel]. destruct q.
  unfold result, final, after, setRepeatMode. cbn.
  rewrite mode_of_name_name. cbn. cbn in E. rewrite E. cbn.
  split; reflexivity.
Qed.

Lemma setRepeatMode_accepts_member_name_witness :
  let w := world_of (queue_of ["a"]) in
  let call := setRepeatMode (JsString "SONG") in
  result call w = Returned (Named NameSONG)
  /\ repeatMode (final call w) = Named NameSONG
  /\ result (setRepeatMode JsUndefined) (after call w) = Returned NotANumber.
Proof.
  pose proof (setRepeatMode_accepts_member_name
                (world_of (queue_of ["a"])) NameSONG) as H.
  cbv zeta in H. destruct H as (_ & _ & _ & H).
  destruct H as (H1 & H2 & H3 & _); [left; reflexivity|].
  cbv zeta. split; [exact H1|]. split; [exact H2 | exact H3].
Defined.

(** ** [previous] *)

Lemma js_index_last {A : Type} (l : list A) :
  js_index l (Z.of_nat (length l) - 1) = last l.
Proof.
  unfold js_index. destruct l as [| x l'] using rev_ind.
  - reflexivity.
  - rewrite length_app, last_snoc. simpl length.
    replace (Z.of_nat (length l' + 1) - 1) with (Z.of_nat (length l')) by lia.
    destruct (Z.ltb_spec (Z.of_nat (length l')) 0) as [?|_]; [lia|].
    rewrite Nat2Z.id. apply list_lookup_middle. reflexivity.
Qed.

(** C10: with [savePreviousSongs] on and the repeat mode QUEUE, [previous]
    returns, whatever the history holds: it gives the last song of
    [songs], and [undefined] when [songs] is empty. *)
Theorem previous_repeat_queue (w : World) :
  savePreviousSongs (w_queue w) = true ->
  repeatMode (w_queue w) = QUEUE ->
  result previous w = Returned (last (songs (w_queue w)))
  /\ (songs (w_queue w) = [] -> result previous w = Returned None).
Proof.
  intros Hsave Hmode.
  assert (result previous w = Returned (last (songs (w_queue w)))) as H.
  { unfold result, previous. rewrite run_locked. cbn.
    rewrite Hsave, Hmode. cbn. rewrite Bool.andb_false_r. cbn.
    rewrite js_index_last. reflexivity. }
  split; [exact H|]. intros E. rewrite H, E. reflexivity.
Qed.

Lemma previous_repeat_queue_witness :
  result previous (world_of (set_repeatMode QUEUE (queue_of []))) = Returned None.
Proof.
  apply (previous_repeat_queue (world_of (set_repeatMode QUEUE (queue_of []))));
    reflexivity.
Defined.

(** ** Integers as JS numbers *)

#[local] Arguments integer_of_position : simpl never.
#[local] Arguments songs_of_arg : simpl never.
#[local] Arguments Num.falsy : simpl never.
#[local] Arguments Num.lt : simpl never.
#[local] Arguments Num.gt : simpl never.
#[local] Arguments Num.neg : simpl never.
#[local] Arguments Num.eq : simpl never.
#[local] Arguments Num.add_int : simpl never.
#[local] Arguments Num.splice_start : simpl never.
#[local] Arguments num_of_Z : simpl never.
#[local] Arguments num_of_nat : simpl never.

Lemma isInteger_of_Z (z : Z) : Num.isInteger (num_of_Z z) = true.
Proof.
  unfold Num.isInteger, num_of_Z. rewrite Qred_identity.
  - reflexivity.
  - simpl. apply Z.gcd_1_r.
Qed.

Lemma trunc_of_Z (z : Z) : Num.trunc (inject_Z z) = z.
Proof. unfold Num.trunc. simpl. apply Z.quot_1_r. Qed.

Lemma trunc_add_int (z c : Z) : Num.trunc (inject_Z z + inject_Z c) = z + c.
Proof.
  unfold Num.trunc. simpl. rewrite Z.quot_1_r. lia.
Qed.

Lemma integer_of_position_int (z : Z) : integer_of_position (JsInt z) = Some z.
Proof.
  unfold integer_of_position, JsInt. rewrite isInteger_of_Z.
  unfold num_of_Z. rewrite trunc_of_Z. reflexivity.
Qed.

Lemma falsy_of_Z (z : Z) : Num.falsy (num_of_Z z) = (z =? 0).
Proof.
  unfold Num.falsy, num_of_Z.
  destruct (Z.eqb_spec z 0) as [-> | Hne].
  - reflexivity.
  - destruct (Qeq_bool (inject_Z z) 0) eqn:E; [|reflexivity].
    apply Qeq_bool_iff in E. apply (inject_Z_injective z 0) in E. contradiction.
Qed.

Lemma lt_of_Z (a b : Z) : Num.lt (num_of_Z a) (num_of_Z b) = (a <? b).
Proof.
  unfold Num.lt, num_of_Z.
  destruct (Z.ltb_spec a b) as [Hlt | Hge].
  - assert (Qle_bool (inject_Z a) (inject_Z b) = true) as ->.
    { apply Qle_bool_iff. rewrite <- Zle_Qle. lia. }
    destruct (Qeq_bool (inject_Z a) (inject_Z b)) eqn:E; [|reflexivity].
    apply Qeq_bool_iff in E. apply (inject_Z_injective a b) in E. lia.
  - destruct (Qle_bool (inject_Z a) (inject_Z b)) eqn:E; [|reflexivity].
    apply Qle_bool_iff in E. rewrite <- Zle_Qle in E.
    assert (a = b) as -> by lia.
    assert (Qeq_bool (inject_Z b) (inject_Z b) = true) as ->
      by (apply Qeq_bool_iff; reflexivity).
    reflexivity.
Qed.

Lemma gt_of_Z (a b : Z) : Num.gt (num_of_Z a) (num_of_Z b) = (b <? a).
Proof. apply lt_of_Z. Qed.

Lemma neg_of_Z (z : Z) : Num.neg (num_of_Z z) = num_of_Z (- z).
Proof. reflexivity. Qed.

Lemma splice_start_add_int (len : nat) (z c : Z) :
  0 <= z + c ->
  Num.splice_start len (Num.add_int (num_of_Z z) c)
  = Z.to_nat (Z.min (z + c) (Z.of_nat len)).
Proof.
  intros H. unfold Num.splice_start, Num.add_int, num_of_Z.
  rewrite trunc_add_int.
  destruct (Z.ltb_spec (z + c) 0); [lia | reflexivity].
Qed.

(** ** [addToQueue] *)

Lemma run_addToQueue (w : World) (song : SongArg) (items : list Song) (pos : Z) :
  stopped (w_queue w) = false ->
  songs_of_arg song = Some items ->
  let q := w_queue w in
  let q' :=
    if pos <=? 0 then set_songs (songs q ++ items) q
    else set_songs (splice_insert (Z.to_nat pos) items (songs q)) q in
  result (addToQueue song (JsInt pos)) w = Returned q'
  /\ final (addToQueue song (JsInt pos)) w = q'.
Proof.
  intros Hs Hi. unfold result, final, after, addToQueue. cbn.
  rewrite Hs, Hi, integer_of_position_int.
  destruct (pos <=? 0); cbn; split; reflexivity.
Qed.

(** C4, as the code has it: on a queue that is not stopped, a position
    [<= 0] appends the new songs to [songs]; a position [k] with
    [1 <= k <= songs.length] puts them at index [k], after the first [k]
    songs (so right after the former element of index [k-1]) and before
    the rest; the queue is the result. *)
Theorem addToQueue_placement (w : World) (song : SongArg) (items : list Song) :
  stopped (w_queue w) = false ->
  songs_of_arg song = Some items ->
  let q := w_queue w in
  (forall z, z <= 0 ->
     final (addToQueue song (JsInt z)) w = set_songs (songs q ++ items) q
     /\ result (addToQueue song (JsInt z)) w
        = Returned (set_songs (songs q ++ items) q))
  /\ (forall k, (1 <= k <= length (songs q))%nat ->
      let l := take k (songs q) ++ items ++ drop k (songs q) in
      final (addToQueue song (JsInt (Z.of_nat k))) w = set_songs l q
      /\ result (addToQueue song (JsInt (Z.of_nat k))) w = Returned (set_songs l q)
      /\ (forall i, (i < k)%nat -> l !! i = songs q !! i)
      /\ (forall i, (i < length items)%nat -> l !! (k + i)%nat = items !! i)
      /\ (forall i, l !! (k + length items + i)%nat = songs q !! (k + i)%nat)).
Proof.
  intros Hs Hi q. split.
  - intros z Hz. destruct (run_addToQueue w song items z Hs Hi) as [Hr Hf].
    fold q in Hr, Hf. destruct (Z.leb_spec z 0); [|lia]. split; assumption.
  - intros k Hk l.
    destruct (run_addToQueue w song items (Z.of_nat k) Hs Hi) as [Hr Hf].
    fold q in Hr, Hf. destruct (Z.leb_spec (Z.of_nat k) 0); [lia|].
    rewrite Nat2Z.id in Hr, Hf. unfold splice_insert in Hr, Hf. fold l in Hr, Hf.
    assert (length (take k (songs q)) = k) as Hlen
      by (rewrite length_take; lia).
    split; [exact Hf|]. split; [exact Hr|]. repeat split.
    + intros i Hik. unfold l. rewrite lookup_app_l by lia.
      apply lookup_take_lt. exact Hik.
    + intros i Hil. unfold l. rewrite lookup_app_r by lia.
      rewrite Hlen. replace (k + i - k)%nat with i by lia.
      apply lookup_app_l. exact Hil.
    + intros i. unfold l. rewrite lookup_app_r by lia.
      rewrite Hlen, lookup_app_r by lia.
      replace (k + length items + i - k - length items)%nat with i by lia.
      apply lookup_drop.
Qed.

Lemma addToQueue_placement_witness :
  final (addToQueue (ArgSong (song_of "x")) (JsInt 2))
    (world_of (queue_of ["a"; "b"; "c"]))
  = queue_of ["a"; "b"; "x"; "c"].
Proof.
  pose proof (addToQueue_placement (world_of (queue_of ["a"; "b"; "c"]))
                (ArgSong (song_of "x")) [song_of "x"] eq_refl eq_refl) as H.
  cbv zeta in H. destruct H as [_ H].
  specialize (H 2%nat). cbv zeta in H.
  destruct H as [H _]; [simpl; lia|]. exact H.
Defined.

(** C4 as stated fails: with [songs = [a; b; c]], [addToQueue(x, 1)] gives
    [[a; x; b; c]]; the new song is not put before the former element of
    index [0]. *)
Lemma addToQueue_position_counterexample :
  let q := queue_of ["a"; "b"; "c"] in
  let x := song_of "x" in
  let k := 1%nat in
  songs (final (addToQueue (ArgSong x) (JsInt (Z.of_nat k))) (world_of q))
  = [song_of "a"; x; song_of "b"; song_of "c"]
  /\ songs (final (addToQueue (ArgSong x) (JsInt (Z.of_nat k))) (world_of q))
     <> take (k - 1) (songs q) ++ [x] ++ drop (k - 1) (songs q).
Proof. split; [reflexivity | discriminate]. Qed.

(** ** [jump] *)

Lemma run_jump_int (w : World) (z : Z) :
  run (jump (JsInt z)) w =
  let q := w_queue w in
  let '(r, w', evs) :=
    run (if (z =? 0) || (Z.of_nat (length (songs q)) <? z)
            || (Z.of_nat (length (previousSongs q)) <? - z)
         then Throw NO_SONG_POSITION
         else if 0 <? z then
           let start :=
             Num.splice_start (length (songs q)) (Num.add_int (num_of_Z z) (-1)) in
           let nextSongs := drop start (songs q) in
           let left := take start (songs q) in
           let history := if savePreviousSongs q then left else map stub left in
           put (set_next true
                  (set_songs nextSongs
                     (set_previousSongs (previousSongs q ++ history) q))) ;;
           voice VoiceStop ;;
           Ret (nextSongs !! 1%nat)
         else if negb (savePreviousSongs q) then Throw DISABLED_OPTION
         else
           let q1 := set_prev true q in
           let q2 :=
             if negb (Num.eq (num_of_Z z) (num_of_Z (-1))) then
               let start :=
                 Num.splice_start (length (previousSongs q1))
                   (Num.add_int (num_of_Z z) 1) in
               set_songs (drop start (previousSongs q1) ++ songs q1)
                 (set_previousSongs (take start (previousSongs q1)) q1)
             else q1 in
           put q2 ;;
           voice VoiceStop ;;
           Ret (js_index (previousSongs q2)
                  (Z.of_nat (length (previousSongs q2)) - 1))) w in
  (r, w', EvQueuing :: EvGet :: evs ++ [EvResolve]).
Proof.
  unfold jump, JsInt. rewrite run_locked. cbn [run bind get perform handle].
  unfold num_of_nat.
  rewrite falsy_of_Z, neg_of_Z, !gt_of_Z.
  cbv zeta.
  match goal with
  | |- context [run ?p w] => destruct (run p w) as [[r w'] evs]
  end.
  reflexivity.
Qed.

(** C5, as the code has it: for [songs] of length [L], [jump(L+1)] and
    [jump(0)] throw NO_SONG_POSITION and change nothing; on a queue with a
    song, [jump(1)] leaves [songs] and the history as they are, sets
    [_next], and returns the song of index [1] ([undefined] when there is
    none), which is the song played next. *)
Theorem jump_bounds (w : World) :
  let q := w_queue w in
  let L := Z.of_nat (length (songs q)) in
  (result (jump (JsInt (L + 1))) w = Thrown NO_SONG_POSITION
   /\ final (jump (JsInt (L + 1))) w = q)
  /\ (result (jump (JsInt 0)) w = Thrown NO_SONG_POSITION
      /\ final (jump (JsInt 0)) w = q)
  /\ (1 <= L ->
      result (jump (JsInt 1)) w = Returned (songs q !! 1%nat)
      /\ final (jump (JsInt 1)) w = set_next true q
      /\ songs (final (jump (JsInt 1)) w) !! 0%nat = songs q !! 0%nat).
Proof.
  intros q L. unfold result, final, after. rewrite !run_jump_int.
  cbv zeta. fold q. fold L.
  split; [|split].
  - assert ((L + 1 =? 0) || (L <? L + 1) = true) as ->.
    { rewrite (proj2 (Z.ltb_lt L (L + 1))) by lia. apply Bool.orb_true_r. }
    cbn. split; reflexivity.
  - cbn. split; reflexivity.
  - intros HL.
    assert ((1 =? 0) || (L <? 1) || (Z.of_nat (length (previousSongs q)) <? - (1))
            = false) as ->.
    { rewrite (proj2 (Z.ltb_ge L 1)) by lia.
      rewrite (proj2 (Z.ltb_ge _ (- (1)))) by lia. reflexivity. }
    change (0 <? 1) with true. cbv iota.
    rewrite splice_start_add_int by lia.
    replace (Z.to_nat (Z.min (1 + -1) (Z.of_nat (length (songs q)))))
      with 0%nat by lia.
    cbn. rewrite drop_0.
    repeat split; try reflexivity.
    generalize q. intros [sg pv st pl pa rm au bt nx pr ls sv cm]. cbn.
    destruct sv; cbn; rewrite app_nil_r; reflexivity.
Qed.

Lemma jump_bounds_witness :
  result (jump (JsInt 1)) (world_of (queue_of ["a"; "b"]))
  = Returned (Some (song_of "b")).
Proof.
  pose proof (jump_bounds (world_of (queue_of ["a"; "b"]))) as H.
  cbv zeta in H. destruct H as (_ & _ & H).
  destruct H as [H _]; [simpl; lia|]. exact H.
Defined.

(** C5 as stated fails: on [songs = [a; b]], [jump(1)] returns [b], the
    next song, not the current song [a]. *)
Lemma jump_one_counterexample :
  let q := queue_of ["a"; "b"] in
  result (jump (JsInt 1)) (world_of q) = Returned (Some (song_of "b"))
  /\ result (jump (JsInt 1)) (world_of q) <> Returned (songs q !! 0%nat).
Proof. split; [reflexivity | discriminate]. Qed.

(** ** [remove], and the commands on a removed queue *)

Lemma run_voice_off_all (events : list string) (w : World) :
  run (voice_off_all events) w
  = (Returned tt, w, map (fun e => EvVoice (VoiceOff e)) events).
Proof.
  induction events as [| e rest IH]; [reflexivity|].
  cbn [voice_off_all]. rewrite run_bind. cbn. rewrite IH. reflexivity.
Qed.

Lemma after_remove (w : World) :
  after remove w = with_queue (removed (w_queue w)) w
  /\ result remove w = Returned tt.
Proof.
  unfold after, result, remove. cbn [bind get put perform run handle].
  rewrite run_bind.
  destruct (_listeners (w_queue w)) as [evs |].
  - rewrite run_voice_off_all. cbn. split; reflexivity.
  - cbn. split; reflexivity.
Qed.

Lemma no_position_in_empty (n : JsNumber) :
  Num.falsy n || Num.gt n (num_of_nat 0)
  || Num.gt (Num.neg n) (num_of_nat 0) = true.
Proof.
  destruct n as [| [|] | q]; try reflexivity.
  unfold Num.falsy, Num.gt, Num.lt, Num.neg, num_of_nat, num_of_Z.
  change (inject_Z (Z.of_nat 0)) with 0%Q.
  destruct (Qeq_bool q 0) eqn:E0; [reflexivity|].
  apply Qeq_bool_neq in E0.
  destruct (Qlt_le_dec 0 q) as [Hpos | Hneg].
  - assert (Qle_bool 0 q = true) as ->
      by (apply Qle_bool_iff, Qlt_le_weak, Hpos).
    destruct (Qeq_bool 0 q) eqn:E; [|reflexivity].
    apply Qeq_bool_iff in E. symmetry in E. contradiction.
  - assert (Qle_bool 0 (- q) = true) as ->.
    { apply Qle_bool_iff. apply (Qopp_le_compat q 0) in Hneg. exact Hneg. }
    destruct (Qeq_bool 0 (- q)) eqn:E.
    + apply Qeq_bool_iff in E. exfalso. apply E0.
      rewrite <- (Qopp_involutive q), <- E. reflexivity.
    + apply Bool.orb_true_r.
Qed.

(** C2, as the code has it: after [remove()] both song lists are empty and
    [stopped] is set; from then on [addToQueue], [play] and [seek] (with a
    valid time) throw QUEUE_STOPPED, while the commands that do not look at
    [stopped] behave as on any empty queue: [pause] succeeds, [resume]
    throws RESUMED, [skip] throws NO_UP_NEXT (NO_PLAYING_SONG under
    autoplay), [shuffle] returns the queue untouched and [jump] throws
    NO_SONG_POSITION for every number. *)
Theorem remove_then_commands (w : World) :
  let w' := after remove w in
  let q' := w_queue w' in
  (songs q' = [] /\ previousSongs q' = [] /\ stopped q' = true)
  /\ (forall song position,
        result (addToQueue song position) w' = Thrown QUEUE_STOPPED)
  /\ (forall emitPlaySong, result (play emitPlaySong) w' = Thrown QUEUE_STOPPED)
  /\ (forall time,
        Num.isNaN time = false -> Num.lt time (num_of_Z 0) = false ->
        result (seek (JsNum time)) w' = Thrown QUEUE_STOPPED)
  /\ result pause w' = Returned (set_paused true q')
  /\ result resume w' = Thrown RESUMED
  /\ result skip w'
     = Thrown (if autoplay q' then NO_PLAYING_SONG else NO_UP_NEXT)
  /\ (result shuffle w' = Returned q' /\ final shuffle w' = q')
  /\ (forall position,
        result (jump (JsNum position)) w' = Thrown NO_SONG_POSITION).
Proof.
  destruct (after_remove w) as [-> _]. cbv zeta.
  destruct w as [q ent rel]. cbn [w_queue with_queue w_entropy w_related].
  repeat apply conj; try reflexivity.
  - intros time Hnan Hlt. unfold result, seek. rewrite Hnan, Hlt. reflexivity.
  - unfold result, skip. rewrite run_locked. cbn.
    destruct (autoplay q); reflexivity.
  - intros position. unfold result, jump. rewrite run_locked.
    cbn [run bind get perform handle w_queue removed songs previousSongs
         set_previousSongs set_songs length].
    rewrite no_position_in_empty. reflexivity.
Qed.

(** C2 as stated fails: [pause()] on a removed queue does not throw
    QUEUE_STOPPED, it returns the queue with [paused] set. *)
Lemma pause_after_remove_counterexample :
  let w' := after remove (world_of (queue_of ["a"; "b"])) in
  stopped (w_queue w') = true
  /\ result pause w' = Returned (set_paused true (w_queue w'))
  /\ result pause w' <> Thrown QUEUE_STOPPED.
Proof. repeat split; try reflexivity. discriminate. Qed.

Lemma remove_then_commands_witness :
  result (seek (JsInt 3)) (after remove (world_of (queue_of ["a"])))
  = Thrown QUEUE_STOPPED.
Proof.
  pose proof (remove_then_commands (world_of (queue_of ["a"]))) as H.
  cbv zeta in H. destruct H as (_ & _ & _ & H & _).
  apply (H (num_of_Z 3)); reflexivity.
Defined.

(** ** [addRelatedSong] *)

Lemma ends_Vis {A X : Type} (e : Eff X) (k : X -> Prog A) (w : World) :
  (run (Vis e k) w).1 = (run (k (handle e w).1.1) (handle e w).1.2).1.
Proof.
  simpl. destruct (handle e w) as [[x w'] ev]. simpl.
  destruct (run (k x) w') as [[r w''] evs]. reflexivity.
Qed.

Lemma run_adopt (w : World) (current s : Song) (rest l : list Song) :
  songs (w_queue w) = current :: rest ->
  related_candidates w current = s :: l ->
  RelatedCase w
    (run (q' <- get ;;
          let song := set_member (clientMember q')
                        (set_metadata (metadata current) s) in
          addToQueue (ArgSong song) JsUndefined ;;
          Ret song) w).1.
Proof.
  intros Hs Hc. unfold addToQueue. cbn [run bind get perform handle].
  destruct (stopped (w_queue w)) eqn:Hst; cbn.
  - eapply related_stopped; eassumption.
  - eapply related_added; eassumption.
Qed.

(** Every way [addRelatedSong] can end. *)
Lemma addRelatedSong_cases (w : World) : RelatedCase w (run addRelatedSong w).1.
Proof.
  unfold addRelatedSong, getRelatedSong.
  unfold get at 1. unfold perform at 1. cbn [bind].
  rewrite ends_Vis. cbn [handle fst snd].
  destruct (songs (w_queue w)) as [| current rest] eqn:Hs.
  { cbn. apply related_nothing_playing. exact Hs. }
  cbn [lookup list_lookup].
  pose proof (fun s l => run_adopt w current s rest l Hs) as Hadopt.
  pose proof (related_none w current rest Hs) as Hnone.
  unfold related_candidates in Hadopt, Hnone.
  unfold perform at 1. cbn [bind]. rewrite ends_Vis. cbn [handle fst snd].
  destruct (not_in_history (map id (previousSongs (w_queue w)))
              (w_related w current)) as [| s l] eqn:Hfirst.
  - cbn [length Nat.eqb andb].
    destruct (playFromSource current); cbn [negb].
    { cbn. apply Hnone. reflexivity. }
    destruct (stream_song current) as [altSong |].
    2:{ cbn. apply Hnone. reflexivity. }
    unfold perform at 1. cbn [bind]. rewrite ends_Vis. cbn [handle fst snd app].
    destruct (not_in_history (map id (previousSongs (w_queue w)))
                (w_related w altSong)) as [| s l] eqn:Hsecond.
    { cbn. apply Hnone. reflexivity. }
    cbn [lookup list_lookup]. apply (Hadopt s l eq_refl).
  - cbn [length Nat.eqb andb bind lookup list_lookup].
    apply (Hadopt s l eq_refl).
Qed.

Lemma candidates_not_in_history (w : World) (current s : Song) :
  s ∈ related_candidates w current ->
  (id s ∉ map id (previousSongs (w_queue w)))
  /\ (s ∈ w_related w current
      \/ (playFromSource current = false
          /\ exists altSong, stream_song current = Some altSong
                             /\ s ∈ w_related w altSong)).
Proof.
  unfold related_candidates, not_in_history.
  destruct (filter _ (w_related w current)) as [| s0 l0] eqn:Hfirst.
  - destruct (playFromSource current); [intros H; inversion H|].
    destruct (stream_song current) as [altSong |]; [|intros H; inversion H].
    intros [Hid Hin]%list_elem_of_filter. split; [exact Hid|].
    right. split; [reflexivity|]. exists altSong. split; [reflexivity | exact Hin].
  - rewrite <- Hfirst. intros [Hid Hin]%list_elem_of_filter.
    split; [exact Hid | left; exact Hin].
Qed.

(** C8, as the code has it: with no song in [songs], [addRelatedSong]
    throws NO_PLAYING_SONG; with a current song, on a queue that is not
    stopped, it throws NO_RELATED when neither lookup leaves a candidate,
    and otherwise takes the first candidate (of the current song, or of
    its underlying song when the first lookup leaves none), whose
    identifier is not in the history, gives it the metadata of the current
    song and the client member of the queue, appends it to [songs] and
    returns it. *)
Theorem addRelatedSong_spec (w : World) :
  let q := w_queue w in
  (songs q = [] ->
   result addRelatedSong w = Thrown NO_PLAYING_SONG
   /\ final addRelatedSong w = q)
  /\ (forall current rest,
        songs q = current :: rest -> stopped q = false ->
        (related_candidates w current = [] ->
         result addRelatedSong w = Thrown NO_RELATED
         /\ final addRelatedSong w = q)
        /\ (forall s l,
              related_candidates w current = s :: l ->
              let s' := adopted q current s in
              (id s ∉ map id (previousSongs q))
              /\ result addRelatedSong w = Returned s'
              /\ final addRelatedSong w = set_songs (songs q ++ [s']) q
              /\ id s' = id s
              /\ metadata s' = metadata current
              /\ member s' = clientMember q)).
Proof.
  intros q. unfold result, final, after.
  pose proof (addRelatedSong_cases w) as H. subst q.
  remember (run addRelatedSong w).1 as out eqn:E. clear E.
  split.
  - intros Hs. destruct H; try congruence. split; reflexivity.
  - intros current rest Hs Hst. split.
    + intros Hnone. destruct H as [Hc | c r Hc Hcand | c r s l Hc Hcand Hst'
                                  | c r s l Hc Hcand Hst'];
        try congruence.
      split; reflexivity.
    + intros s l Hcand. cbv zeta.
      assert (id s ∉ map id (previousSongs (w_queue w))) as Hid.
      { apply (candidates_not_in_history w current s). rewrite Hcand. left. }
      split; [exact Hid|].
      destruct H as [Hc | c r Hc Hno | c r s0 l0 Hc Hcand0 Hst0
                    | c r s0 l0 Hc Hcand0 Hst0 q0 s0']; try congruence.
      assert (c = current) as -> by congruence.
      assert (s0 = s) as -> by congruence.
      cbn [fst snd w_queue with_queue]. repeat split.
Qed.

Lemma addRelatedSong_spec_witness :
  result addRelatedSong (related_world requested_queue)
  = Returned (mkSong "r" (Some "request 7") (Some "bot") true None)
  /\ songs (final addRelatedSong (related_world requested_queue))
     = [requested_song; mkSong "r" (Some "request 7") (Some "bot") true None].
Proof.
  pose proof (addRelatedSong_spec (related_world requested_queue)) as H.
  cbv zeta in H. destruct H as [_ H].
  specialize (H requested_song [] eq_refl eq_refl). destruct H as [_ H].
  specialize (H (mkSong "r" None None true None) [] eq_refl).
  cbv zeta in H. destruct H as (_ & Hr & Hf & _).
  split; [exact Hr|]. rewrite Hf. reflexivity.
Defined.

(** C8 as stated fails: the related song does not get the member of the
    current song (the user who requested it) but the client member of the
    queue. *)
Lemma addRelatedSong_member_counterexample :
  exists s,
    result addRelatedSong (related_world requested_queue) = Returned s
    /\ member requested_song = Some "alice"
    /\ member s = Some "bot"
    /\ member s <> member requested_song.
Proof.
  eexists. split; [reflexivity|]. repeat split. discriminate.
Qed.

(** ** [skip] *)

Lemma ends_bind {A B : Type} (p : Prog A) (f : A -> Prog B) (w : World) :
  (run (bind p f) w).1 =
  match (run p w).1 with
  | (Returned a, w') => (run (f a) w').1
  | (Thrown e, w') => (Thrown e, w')
  end.
Proof.
  rewrite run_bind. destruct (run p w) as [[[a | e] w'] evs]; [|reflexivity].
  simpl. destruct (run (f a) w') as [[r w''] evs']. reflexivity.
Qed.

Lemma ends_locked {A : Type} (body : Prog A) (w : World) :
  (run (locked body) w).1 = (run body w).1.
Proof.
  rewrite run_locked. destruct (run body w) as [[r w'] evs]. reflexivity.
Qed.

Lemma ends_skip (w : World) :
  (run skip w).1 =
  let q := w_queue w in
  if (length (songs q) <=? 1)%nat then
    if autoplay q then
      match (run addRelatedSong w).1 with
      | (Returned _, w1) =>
          (Returned (songs (w_queue w1) !! 1%nat),
           with_queue (set_next true (w_queue w1)) w1)
      | (Thrown e, w1) => (Thrown e, w1)
      end
    else (Thrown NO_UP_NEXT, w)
  else (Returned (songs q !! 1%nat), with_queue (set_next true q) w).
Proof.
  unfold skip. rewrite ends_locked.
  unfold get at 1. unfold perform at 1. cbn [bind].
  rewrite ends_Vis. cbn [handle fst snd]. cbv zeta.
  rewrite ends_bind.
  destruct (length (songs (w_queue w)) <=? 1)%nat.
  - destruct (autoplay (w_queue w)); [|reflexivity].
    rewrite ends_bind.
    destruct (run addRelatedSong w).1 as [[s | e] w1]; reflexivity.
  - reflexivity.
Qed.

(** C3, as the code has it: [skip] throws NO_UP_NEXT exactly when fewer
    than two songs remain and autoplay is off; whenever it throws, the
    queue is as it was; when it returns, it returns the song of index [1]
    of [songs] as they are then, which with two songs or more is the song
    of index [1] at the call. With fewer than two songs and autoplay on,
    the outcome is that of [addRelatedSong]: NO_PLAYING_SONG without a
    song, NO_RELATED without a candidate, and otherwise the related song,
    added after the current one, is returned. *)
Theorem skip_spec (w : World) :
  let q := w_queue w in
  (result skip w = Thrown NO_UP_NEXT
   <-> (length (songs q) <= 1)%nat /\ autoplay q = false)
  /\ (forall e, result skip w = Thrown e -> final skip w = q)
  /\ (forall song,
        result skip w = Returned song -> song = songs (final skip w) !! 1%nat)
  /\ ((2 <= length (songs q))%nat ->
      result skip w = Returned (songs q !! 1%nat)
      /\ final skip w = set_next true q)
  /\ ((length (songs q) <= 1)%nat -> autoplay q = true ->
      (songs q = [] -> result skip w = Thrown NO_PLAYING_SONG)
      /\ (forall current, songs q = [current] ->
          (related_candidates w current = [] ->
           result skip w = Thrown NO_RELATED)
          /\ (forall s l,
                related_candidates w current = s :: l -> stopped q = false ->
                result skip w = Returned (Some (adopted q current s))
                /\ songs (final skip w) = [current; adopted q current s]))).
Proof.
  intros q. subst q. unfold result, final, after. rewrite ends_skip. cbv zeta.
  pose proof (addRelatedSong_cases w) as H.
  destruct (Nat.leb_spec (length (songs (w_queue w))) 1) as [Hlen | Hlen].
  2:{ cbn [fst snd w_queue with_queue].
      split; [|split; [|split; [|split]]].
      - split; [discriminate | lia].
      - discriminate.
      - intros song [= <-]. reflexivity.
      - intros _. split; reflexivity.
      - lia. }
  destruct (autoplay (w_queue w)) eqn:Hauto.
  2:{ cbn [fst snd].
      split; [|split; [|split; [|split]]].
      - split; [intros _; split; [exact Hlen | reflexivity] | reflexivity].
      - reflexivity.
      - discriminate.
      - lia.
      - discriminate. }
  remember (run addRelatedSong w).1 as out eqn:E. clear E.
  destruct H as [Hs | c r Hs Hcand | c r s l Hs Hcand Hst
                | c r s l Hs Hcand Hst q0 s0'];
    cbn [fst snd w_queue with_queue];
    (split; [|split; [|split; [|split]]]);
    try (split; [discriminate | intros [_ ?]; discriminate]);
    try (intros; lia); try discriminate; try reflexivity.
  - intros _ _. split; [reflexivity | intros; congruence].
  - intros _ _. split; [intros; congruence|].
    intros current Hcur. assert (c = current) as -> by congruence.
    split; [reflexivity | intros; congruence].
  - intros _ _. split; [intros; congruence|].
    intros current Hcur. assert (c = current) as -> by congruence.
    split; intros; congruence.
  - intros song [= <-]. reflexivity.
  - intros _ _. split; [intros; congruence|].
    intros current Hcur. assert (c = current) as -> by congruence.
    split; [intros; congruence|].
    intros s1 l1 Hc1 _. assert (s1 = s) as -> by congruence.
    subst q0 s0'. rewrite Hcur. split; reflexivity.
Qed.

Lemma skip_spec_witness :
  result skip (world_of (queue_of ["a"; "b"; "c"])) = Returned (Some (song_of "b"))
  /\ result skip (related_world (set_autoplay true requested_queue))
     = Returned (Some (mkSong "r" (Some "request 7") (Some "bot") true None)).
Proof.
  split.
  - pose proof (skip_spec (world_of (queue_of ["a"; "b"; "c"]))) as H.
    cbv zeta in H. destruct H as (_ & _ & _ & H & _).
    destruct H as [H _]; [simpl; lia | exact H].
  - pose proof (skip_spec (related_world (set_autoplay true requested_queue))) as H.
    cbv zeta in H. destruct H as (_ & _ & _ & _ & H).
    destruct H as [_ H]; [simpl; lia | reflexivity |].
    destruct (H requested_song eq_refl) as [_ H'].
    destruct (H' (mkSong "r" None None true None) [] eq_refl eq_refl) as [Hr _].
    exact Hr.
Defined.

(** C3 as stated fails: with one song, autoplay on and no related song,
    [skip] throws NO_RELATED, not NO_UP_NEXT. *)
Lemma skip_no_related_counterexample :
  let w := world_of (set_autoplay true (queue_of ["a"])) in
  (length (songs (w_queue w)) < 2)%nat
  /\ related_candidates w (song_of "a") = []
  /\ result skip w = Thrown NO_RELATED
  /\ result skip w <> Thrown NO_UP_NEXT.
Proof.
  cbv zeta. split; [simpl; lia|]. split; [reflexivity|].
  split; [reflexivity | discriminate].
Qed.

(** ** [shuffle] *)

Lemma swap_Permutation {A : Type} (i j : nat) (l : list A) : swap i j l ≡ₚ l.
Proof.
  unfold swap.
  destruct (l !! j) as [x |] eqn:Hj; [|reflexivity].
  destruct (l !! i) as [y |] eqn:Hi; [|reflexivity].
  apply Permutation_insert_swap; assumption.
Qed.

(** The index drawn for position [i] is one of [0 .. i]. *)
Lemma draw_le (i : nat) (w : World) : ((draw i w).1 <= i)%nat.
Proof.
  unfold draw. destruct (w_entropy w) as [| r rest]; simpl; [lia|].
  pose proof (Nat.mod_upper_bound r (S i)). lia.
Qed.

Lemma draw_queue (i : nat) (w : World) : w_queue (draw i w).2 = w_queue w.
Proof. unfold draw. destruct (w_entropy w); reflexivity. Qed.

Lemma set_songs_same (q : Queue) : set_songs (songs q) q = q.
Proof. destruct q; reflexivity. Qed.

Lemma ends_shuffle_loop (i : nat) (w : World) :
  exists l' w',
    (run (shuffle_loop i) w).1 = (Returned tt, w')
    /\ w_queue w' = set_songs l' (w_queue w)
    /\ l' ≡ₚ songs (w_queue w).
Proof.
  revert w. induction i as [| i IH]; intros w.
  - exists (songs (w_queue w)), w. cbn.
    split; [reflexivity|]. split; [symmetry; apply set_songs_same | reflexivity].
  - cbn [shuffle_loop]. unfold perform at 1. cbn [bind].
    rewrite ends_Vis. cbn [handle].
    destruct (draw (S i) w) as [j w1] eqn:Hdraw. cbn [fst snd].
    assert (w_queue w1 = w_queue w) as Hq1
      by (rewrite <- (draw_queue (S i) w), Hdraw; reflexivity).
    unfold get at 1. unfold perform at 1. cbn [bind].
    rewrite ends_Vis. cbn [handle fst snd].
    unfold put at 1. unfold perform at 1. cbn [bind].
    rewrite ends_Vis. cbn [handle fst snd].
    destruct (IH (with_queue (set_songs (swap (S i) j (songs (w_queue w1)))
                                (w_queue w1)) w1))
      as (l' & w' & Hrun & Hq & Hperm).
    exists l', w'. split; [exact Hrun|].
    cbn [w_queue with_queue songs set_songs] in Hq, Hperm.
    rewrite Hq1 in Hq, Hperm. split; [exact Hq|].
    rewrite Hperm. apply swap_Permutation.
Qed.

Lemma ends_shuffle (w : World) :
  match songs (w_queue w) with
  | [] => (run shuffle w).1 = (Returned (w_queue w), w)
  | playing :: rest =>
      exists rest' w',
        (run shuffle w).1 = (Returned (w_queue w'), w')
        /\ w_queue w' = set_songs (playing :: rest') (w_queue w)
        /\ rest' ≡ₚ rest
  end.
Proof.
  destruct (songs (w_queue w)) as [| playing rest] eqn:Hs;
    unfold shuffle; rewrite ends_locked;
    unfold get at 1; unfold perform at 1; cbn [bind];
    rewrite ends_Vis; cbn [handle fst snd]; rewrite Hs; [reflexivity|].
  unfold put at 1. unfold perform at 1. cbn [bind].
  rewrite ends_Vis. cbn [handle fst snd].
  rewrite ends_bind.
  destruct (ends_shuffle_loop (length rest - 1)
              (with_queue (set_songs rest (w_queue w)) w))
    as (rest' & w' & Hrun & Hq & Hperm).
  cbn [w_queue with_queue songs set_songs] in Hq, Hperm.
  rewrite Hrun. cbn. rewrite Hq. cbn.
  exists rest',
    (with_queue (set_songs (playing :: rest') (w_queue w)) w').
  split; [reflexivity|]. split; [reflexivity | exact Hperm].
Qed.

(** C7: on an empty [songs], [shuffle] returns the queue as it is; on
    [songs = playing :: rest] it leaves [playing] at index [0], puts a
    permutation of [rest] after it, changes no other field, and returns the
    queue. *)
Theorem shuffle_spec (w : World) :
  let q := w_queue w in
  (songs q = [] -> result shuffle w = Returned q /\ final shuffle w = q)
  /\ (forall playing rest,
        songs q = playing :: rest ->
        exists rest',
          final shuffle w = set_songs (playing :: rest') q
          /\ rest' ≡ₚ rest
          /\ songs (final shuffle w) !! 0%nat = Some playing
          /\ result shuffle w = Returned (final shuffle w)).
Proof.
  intros q. subst q. unfold result, final, after.
  pose proof (ends_shuffle w) as H.
  split.
  - intros Hs. rewrite Hs in H. rewrite H. split; reflexivity.
  - intros playing rest Hs. rewrite Hs in H.
    destruct H as (rest' & w' & -> & Hq & Hperm).
    exists rest'. cbn [fst snd]. rewrite Hq.
    split; [reflexivity|]. split; [exact Hperm|]. split; reflexivity.
Qed.

Lemma shuffle_spec_witness :
  exists rest',
    songs (final shuffle (mkWorld (queue_of ["a"; "b"; "c"; "d"]) [5; 3]%nat
                            (fun _ => [])))
    = song_of "a" :: rest'
    /\ rest' ≡ₚ [song_of "b"; song_of "c"; song_of "d"].
Proof.
  pose proof (shuffle_spec (mkWorld (queue_of ["a"; "b"; "c"; "d"]) [5; 3]%nat
                              (fun _ => []))) as H.
  cbv zeta in H. destruct H as [_ H].
  destruct (H (song_of "a") [song_of "b"; song_of "c"; song_of "d"] eq_refl)
    as (rest' & Hf & Hperm & _).
  exists rest'. rewrite Hf. split; [reflexivity | exact Hperm].
Defined.

(** The loop only swaps positions inside the array: it starts at
    [length - 1], goes down, and draws [j <= i]. *)
Lemma swap_in_range {A : Type} (i j : nat) (l : list A) :
  (j <= i)%nat -> (i < length l)%nat ->
  exists x y,
    l !! j = Some x /\ l !! i = Some y /\ swap i j l = <[j:=y]> (<[i:=x]> l).
Proof.
  intros Hji Hi.
  destruct (lookup_lt_is_Some_2 l i Hi) as [y Hy].
  destruct (lookup_lt_is_Some_2 l j ltac:(lia)) as [x Hx].
  exists x, y. unfold swap. rewrite Hx, Hy. repeat split.
Qed.

(** ** The commands and the task queue *)

Lemma quiet_bind {A B : Type} (p : Prog A) (f : A -> Prog B) :
  Quiet p -> (forall a, Quiet (f a)) -> Quiet (bind p f).
Proof.
  intros Hp Hf. induction Hp as [a | e | X e k He Hk IH]; simpl.
  - apply Hf.
  - constructor.
  - constructor; [exact He | exact IH].
Qed.

Lemma quiet_perform {X : Type} (e : Eff X) :
  quiet_eff e = true -> Quiet (perform e).
Proof. intros He. constructor; [exact He | intros x; constructor]. Qed.

Create HintDb quiet.

Ltac quiet_step :=
  first
    [ solve [auto with quiet nocore]
    | apply quiet_Ret
    | apply quiet_Throw
    | apply quiet_perform; reflexivity
    | apply quiet_bind
    | apply quiet_Vis; [reflexivity|]
    | progress intros
    | match goal with
      | |- Quiet (if ?b then _ else _) => destruct b
      | |- Quiet (match ?x with _ => _ end) => destruct x
      | |- Quiet (let _ := _ in _) => cbv zeta
      end ].

Ltac quiet := repeat quiet_step.

Lemma quiet_addToQueue (song : SongArg) (position : JsValue) :
  Quiet (addToQueue song position).
Proof. unfold addToQueue. quiet. Qed.

Lemma quiet_shuffle_loop (i : nat) : Quiet (shuffle_loop i).
Proof. induction i as [| i IH]; cbn [shuffle_loop]; quiet. Qed.

Lemma quiet_voice_off_all (events : list string) : Quiet (voice_off_all events).
Proof. induction events as [| e rest IH]; cbn [voice_off_all]; quiet. Qed.

#[local] Hint Resolve quiet_addToQueue quiet_shuffle_loop quiet_voice_off_all
  : quiet.

Lemma quiet_addRelatedSong : Quiet addRelatedSong.
Proof. unfold addRelatedSong. quiet. Qed.

Lemma quiet_remove : Quiet remove.
Proof. unfold remove. quiet. Qed.

#[local] Hint Resolve quiet_addRelatedSong quiet_remove : quiet.

Lemma releases_try_finally {A : Type} (p : Prog A) :
  Quiet p -> Releases (try_finally p (perform Resolve)).
Proof.
  intros Hp. induction Hp as [a | e | X e k He Hk IH]; simpl.
  - apply releases_now. intros x. exact I.
  - apply releases_now. intros x. exact I.
  - apply releases_later; [exact He | exact IH].
Qed.

Lemma guarded_locked {A : Type} (body : Prog A) :
  Quiet body -> Guarded (locked body).
Proof.
  intros Hb. unfold Guarded, locked.
  exists (fun x => bind (Ret x) (fun _ => try_finally body (perform Resolve))).
  split; [reflexivity|]. intros x. simpl. apply releases_try_finally, Hb.
Qed.

(** Every [async] method is a body that leaves the task queue alone,
    between [queuing()] and the [resolve()] of its [finally]. *)
Lemma async_locked (c : Command) :
  is_async c = true -> exists body, program c = locked body /\ Quiet body.
Proof.
  destruct c; simpl; try discriminate; intros _;
    (eexists; split; [reflexivity|]); quiet.
Qed.

Lemma async_guarded (c : Command) :
  is_async c = true -> Guarded (program c).
Proof.
  intros Hc. destruct (async_locked c Hc) as (body & -> & Hb).
  apply guarded_locked, Hb.
Qed.

(** The other methods never touch the task queue. *)
Lemma sync_quiet (c : Command) : is_async c = false -> Quiet (program c).
Proof.
  destruct c; simpl; try discriminate; intros _.
  - quiet.
  - unfold setRepeatMode. quiet.
  - unfold seek, play. quiet.
Qed.

Lemma quiet_events {A : Type} (p : Prog A) (w : World) :
  Quiet p -> (EvQueuing ∉ events p w) /\ (EvResolve ∉ events p w).
Proof.
  intros Hp. revert w. unfold events.
  induction Hp as [a | e | X e k He Hk IH]; intros w; simpl.
  - split; apply not_elem_of_nil.
  - split; apply not_elem_of_nil.
  - destruct (handle e w) as [[x w'] ev] eqn:Hh.
    specialize (IH x w'). destruct (run (k x) w') as [[r w''] evs]. simpl in *.
    assert (ev <> EvQueuing /\ ev <> EvResolve) as [H1 H2].
    { destruct e; try discriminate He; simpl in Hh;
        try (injection Hh as <- <- <-; split; discriminate).
      destruct (draw i w) as [j w1]. injection Hh as <- <- <-.
      split; discriminate. }
    destruct IH as [IH1 IH2].
    split; intros [? | ?]%elem_of_cons; congruence.
Qed.

(** ** The event loop keeps the commands apart *)

Lemma scan_snoc (st : Windows) (log : list Entry) (e : Entry) :
  scan st (log ++ [e]) =
  match scan st log with
  | Some st' => observe st' e
  | None => None
  end.
Proof.
  revert st. induction log as [| e0 log IH]; intros st; simpl.
  - destruct (observe st e); reflexivity.
  - destruct (observe st e0) as [st' |]; [apply IH | reflexivity].
Qed.

Lemma observe_holder (st : Windows) (n : nat) (ev : Event) :
  holder st = Some n -> ev <> EvQueuing -> ev <> EvResolve ->
  observe st (Did n ev) = Some st.
Proof.
  intros Hh H1 H2. unfold observe.
  rewrite bool_decide_eq_true_2 by exact Hh.
  destruct ev; congruence.
Qed.



(** A command that holds the queue runs to a plugin call or to its end; in
    the first case it still holds the queue, in the second it has released
    it, and everything it did was in order. *)
Lemma advance_releases {A : Type} (p : Prog A) :
  Releases p ->
  forall (n : nat) (s : System) (st : Windows),
    scan (mkWindows None 0) (sys_log s) = Some st ->
    holder st = Some n ->
    let r := advance n p s in
    sys_tasks r.1 = sys_tasks s
    /\ ((task_finished r.2
         /\ sys_tickets r.1 = tail (sys_tickets s)
         /\ scan (mkWindows None 0) (sys_log r.1) = Some (mkWindows None (admissions st)))
        \/ (task_fetching r.2
            /\ sys_tickets r.1 = sys_tickets s
            /\ scan (mkWindows None 0) (sys_log r.1) = Some st)).
Proof.
  induction 1 as [k Hover | X e k He Hk IH]; intros n s st Hscan Hh.
  - cbn [advance react].
    assert (scan (mkWindows None 0) (sys_log s ++ [Did n EvResolve])
            = Some (mkWindows None (admissions st))) as Hscan'.
    { rewrite scan_snoc, Hscan. simpl.
      rewrite bool_decide_eq_true_2 by exact Hh. reflexivity. }
    specialize (Hover tt). destruct (k tt) as [a | err | Y e' k']; try contradiction.
    + cbn. split; [reflexivity|]. left. repeat split. exact Hscan'.
    + cbn. split; [reflexivity|]. left. repeat split. exact Hscan'.
  - assert (forall ev, ev <> EvQueuing -> ev <> EvResolve ->
                 scan (mkWindows None 0) (sys_log s ++ [Did n ev]) = Some st) as Hlog.
    { intros ev H1 H2. rewrite scan_snoc, Hscan.
      apply observe_holder; assumption. }
    destruct e; try discriminate He; cbn [advance react];
      try match goal with
        | |- context [advance n (k ?x) ?s'] =>
            destruct (IH x n s' st) as [Ht Hcases];
            [apply Hlog; discriminate | exact Hh |];
            cbv zeta; split; [exact Ht | exact Hcases]
        end.
    cbn. split; [reflexivity|]. right. split; [exact Hk|].
    split; [reflexivity|]. apply Hlog; discriminate.
Qed.

Lemma inv_initial (q : Queue) (entropy : list nat) :
  Inv (initial q entropy) 0 (mkWindows None 0).
Proof.
  constructor; simpl; try reflexivity.
  - left. reflexivity.
  - intros n t H. rewrite lookup_nil in H. discriminate.
Qed.

(** The command that holds the queue takes its turn. *)
Lemma inv_holder_runs {A : Type} (p : Prog A) (s0 : System) (r : nat)
  (st1 : Windows) :
  Releases p ->
  scan (mkWindows None 0) (sys_log s0) = Some st1 ->
  holder st1 = Some r ->
  admissions st1 = S r ->
  sys_tickets s0 = seq r (length (sys_tasks s0) - r) ->
  (r < length (sys_tasks s0))%nat ->
  (forall n t, n <> r -> sys_tasks s0 !! n = Some t ->
     if (n <? r)%nat then task_finished t else task_waiting t) ->
  exists r' st', Inv (settle r (advance r p s0)) r' st'.
Proof.
  intros Hp Hscan Hh Hadm Htick Hr Hothers.
  destruct (advance_releases p Hp r s0 st1 Hscan Hh) as [Htasks Hcases].
  unfold settle. destruct (advance r p s0) as [s1 t1]. cbn [fst snd] in *.
  destruct Hcases as [(Hfin & Ht & Hs) | (Hfetch & Ht & Hs)].
  - exists (S r), (mkWindows None (admissions st1)).
    constructor; cbn [sys_log sys_tickets sys_tasks with_tasks holder admissions].
    + exact Hs.
    + rewrite Ht, Htick, length_insert, Htasks.
      replace (length (sys_tasks s0) - r)%nat
        with (S (length (sys_tasks s0) - S r)) by lia.
      reflexivity.
    + rewrite length_insert, Htasks. lia.
    + left. reflexivity.
    + exact Hadm.
    + intros n t. rewrite Htasks.
      destruct (decide (n = r)) as [-> | Hne].
      * rewrite list_lookup_insert_eq by exact Hr. intros [= <-].
        rewrite (proj2 (Nat.ltb_lt r (S r))) by lia. exact Hfin.
      * rewrite list_lookup_insert_ne by congruence. intros Hl.
        specialize (Hothers n t Hne Hl).
        destruct (Nat.ltb_spec n r).
        { rewrite (proj2 (Nat.ltb_lt n (S r))) by lia. exact Hothers. }
        rewrite (proj2 (Nat.ltb_ge n (S r))) by lia.
        destruct (n =? S r)%nat; exact Hothers.
  - exists r, st1.
    constructor; cbn [sys_log sys_tickets sys_tasks with_tasks].
    + exact Hs.
    + rewrite Ht, Htick, length_insert, Htasks. reflexivity.
    + rewrite length_insert, Htasks. lia.
    + right. split; [exact Hh|]. rewrite length_insert, Htasks. exact Hr.
    + rewrite Hh. exact Hadm.
    + intros n t. rewrite Htasks, Hh.
      destruct (decide (n = r)) as [-> | Hne].
      * rewrite list_lookup_insert_eq by exact Hr. intros [= <-].
        rewrite Nat.ltb_irrefl, Nat.eqb_refl. exact Hfetch.
      * rewrite list_lookup_insert_ne by congruence. intros Hl.
        specialize (Hothers n t Hne Hl).
        destruct (Nat.ltb_spec n r); [exact Hothers|].
        rewrite (proj2 (Nat.eqb_neq n r)) by exact Hne. exact Hothers.
Qed.

Lemma inv_others (s : System) (r : nat) (st : Windows) :
  Inv s r st ->
  forall n t, n <> r -> sys_tasks s !! n = Some t ->
    if (n <? r)%nat then task_finished t else task_waiting t.
Proof.
  intros HI n t Hne Hl. pose proof (inv_tasks s r st HI n t Hl) as H.
  destruct (n <? r)%nat; [exact H|].
  rewrite (proj2 (Nat.eqb_neq n r)) in H by exact Hne. exact H.
Qed.

Lemma inv_head (s : System) (r : nat) (st : Windows) (n : nat) :
  Inv s r st -> head (sys_tickets s) = Some n ->
  n = r /\ (r < length (sys_tasks s))%nat.
Proof.
  intros HI. rewrite (inv_tickets s r st HI).
  destruct (length (sys_tasks s) - r)%nat as [| m] eqn:E; simpl.
  - discriminate.
  - intros [= <-]. split; [reflexivity | lia].
Qed.

(** Every turn of the event loop keeps the invariant. *)
Lemma inv_turn (s s' : System) (r : nat) (st : Windows) (l : Turn) :
  Inv s r st -> issues_async l = true -> turn l s = Some s' ->
  exists r' st', Inv s' r' st'.
Proof.
  intros HI Hl Hturn. destruct l as [c | n | n found]; simpl in Hturn.
  - destruct (async_guarded c Hl) as (k & Hk & Hrel).
    rewrite Hk in Hturn. cbn in Hturn. injection Hturn as <-.
    exists r, st. destruct HI as [Hscan Htick Hr Hh Hadm Htasks].
    constructor; cbn [sys_log sys_tickets sys_tasks with_tasks].
    + rewrite scan_snoc, Hscan. reflexivity.
    + unfold TaskQueue.queuing. rewrite Htick, length_app. simpl.
      replace (length (sys_tasks s) + 1 - r)%nat
        with (S (length (sys_tasks s) - r)) by lia.
      rewrite seq_S. do 2 f_equal. lia.
    + rewrite length_app. simpl. lia.
    + destruct Hh as [Hh | [Hh Hlt]]; [left; exact Hh|].
      right. split; [exact Hh|]. rewrite length_app. simpl. lia.
    + exact Hadm.
    + intros n t Hl'. apply lookup_app_Some in Hl' as [Hl' | [Hge Hl']].
      * apply Htasks, Hl'.
      * destruct (n - length (sys_tasks s))%nat as [| m] eqn:E;
          [|rewrite lookup_cons, lookup_nil in Hl'; discriminate].
        injection Hl' as <-. assert (n = length (sys_tasks s)) as -> by lia.
        rewrite (proj2 (Nat.ltb_ge _ r)) by lia.
        destruct (Nat.eqb_spec (length (sys_tasks s)) r) as [E' | _];
          [|exact (Hrel tt)].
        destruct Hh as [-> | [_ Hlt]]; [exact (Hrel tt) | lia].
  - destruct (sys_tasks s !! n) as [[A k | A song k | A res] |] eqn:Hn;
      try discriminate.
    unfold TaskQueue.granted in Hturn.
    destruct (bool_decide (head (sys_tickets s) = Some n)) eqn:Hhead;
      [|discriminate].
    apply bool_decide_eq_true_1 in Hhead. injection Hturn as <-.
    destruct (inv_head s r st n HI Hhead) as [-> Hr].
    pose proof (inv_tasks s r st HI r _ Hn) as Ht.
    rewrite Nat.ltb_irrefl, Nat.eqb_refl in Ht.
    destruct (holder st) as [h |] eqn:Hh; [contradiction|].
    apply (inv_holder_runs (k tt) (logged (Granted r) s) r
             (mkWindows (Some r) (S r))).
    + exact Ht.
    + cbn. rewrite scan_snoc, (inv_scan s r st HI). simpl.
      rewrite Hh, (inv_admissions s r st HI), Hh, Nat.eqb_refl. reflexivity.
    + reflexivity.
    + reflexivity.
    + exact (inv_tickets s r st HI).
    + exact Hr.
    + exact (inv_others s r st HI).
  - destruct (sys_tasks s !! n) as [[A k | A song k | A res] |] eqn:Hn;
      try discriminate.
    injection Hturn as <-.
    pose proof (inv_tasks s r st HI n _ Hn) as Ht.
    destruct (Nat.ltb_spec n r); [contradiction|].
    destruct (Nat.eqb_spec n r) as [-> | Hne]; [|contradiction].
    destruct (holder st) as [h |] eqn:Hh; [|contradiction].
    destruct (inv_holder s r st HI) as [Hnone | [Hsome Hr]]; [congruence|].
    assert (h = r) as -> by congruence.
    apply (inv_holder_runs (k found) s r st).
    + apply Ht.
    + exact (inv_scan s r st HI).
    + exact Hh.
    + rewrite (inv_admissions s r st HI), Hh. reflexivity.
    + exact (inv_tickets s r st HI).
    + exact Hr.
    + exact (inv_others s r st HI).
Qed.

Lemma inv_turns (ls : list Turn) (s s' : System) (r : nat) (st : Windows) :
  Inv s r st -> forallb issues_async ls = true -> turns ls s = Some s' ->
  exists r' st', Inv s' r' st'.
Proof.
  revert s r st. induction ls as [| l ls IH]; intros s r st HI Hls Hturns.
  - injection Hturns as <-. exists r, st. exact HI.
  - simpl in Hls, Hturns. apply andb_prop in Hls as [Hl Hls].
    destruct (turn l s) as [s1 |] eqn:Hturn; [|discriminate].
    destruct (inv_turn s s1 r st l HI Hl Hturn) as (r1 & st1 & HI1).
    exact (IH s1 r1 st1 HI1 Hls Hturns).
Qed.

(** C1, as the code has it: each of the [async] methods [pause],
    [resume], [skip], [previous], [shuffle], [jump] and [stop] takes a
    ticket of the task queue before it reads or writes the queue and
    releases it as its last effect on every path; [addToQueue],
    [setRepeatMode] and [seek] are synchronous and never touch the task
    queue. For any commands of the first kind, issued, admitted and
    answered in any order the event loop allows, the log is serial: the
    windows between admission and release do not overlap, they come in the
    order the commands were issued, every access to the queue lies in the
    window of the command that makes it, and a command that is over holds
    no ticket. *)
Theorem async_commands_serial :
  (forall c w, is_async c = true ->
     exists evs,
       events (program c) w = EvQueuing :: evs ++ [EvResolve]
       /\ (EvQueuing ∉ evs) /\ (EvResolve ∉ evs))
  /\ (forall c w, is_async c = false ->
        (EvQueuing ∉ events (program c) w)
        /\ (EvResolve ∉ events (program c) w))
  /\ (forall q entropy ls s,
        forallb issues_async ls = true ->
        turns ls (initial q entropy) = Some s ->
        serial (sys_log s)
        /\ (forall n t, sys_tasks s !! n = Some t -> task_finished t ->
              n ∉ sys_tickets s)).
Proof.
  split; [|split].
  - intros c w Hc. destruct (async_locked c Hc) as (body & -> & Hb).
    exists (events body w). unfold events at 1. rewrite run_locked.
    pose proof (quiet_events body w Hb) as [H1 H2]. unfold events in *.
    destruct (run body w) as [[r w'] evs]. simpl in *. repeat split; assumption.
  - intros c w Hc. apply quiet_events, sync_quiet, Hc.
  - intros q entropy ls s Hls Hturns.
    destruct (inv_turns ls _ s 0 _ (inv_initial q entropy) Hls Hturns)
      as (r & st & HI).
    split.
    + exists st. exact (inv_scan s r st HI).
    + intros n t Hl Hfin. pose proof (inv_tasks s r st HI n t Hl) as Ht.
      rewrite (inv_tickets s r st HI), elem_of_seq.
      destruct (Nat.ltb_spec n r); [lia|]. exfalso.
      destruct t; try contradiction.
      destruct (n =? r)%nat, (holder st); exact Ht.
Qed.

Lemma async_commands_serial_witness :
  match
    turns [Issue CmdPause; Issue CmdSkip; Issue CmdShuffle; Grant 0%nat;
           Grant 1%nat; Answer 1%nat [song_of "r"]; Grant 2%nat]
      (initial (set_autoplay true (queue_of ["a"])) [3; 1]%nat)
  with
  | Some s =>
      serial (sys_log s)
      /\ sys_tickets s = []
      /\ map id (songs (sys_queue s)) = ["a"; "r"]
  | None => False
  end.
Proof.
  destruct async_commands_serial as (_ & _ & H).
  destruct (turns _ _) as [s |] eqn:E.
  - split.
    + eapply H; [|exact E]. reflexivity.
    + vm_compute in E. injection E as <-. split; reflexivity.
  - vm_compute in E. discriminate.
Defined.

(** C1 as stated fails: [setRepeatMode] writes the queue without taking a
    ticket, and an [addToQueue] issued while [skip] waits for the plugin
    writes the queue inside the window of [skip]. *)
Lemma sync_commands_counterexample :
  events (setRepeatMode JsUndefined) (world_of (queue_of ["a"]))
  = [EvGet; EvPut; EvGet]
  /\ (exists s,
        turns [Issue CmdSkip; Grant 0%nat;
               Issue (CmdAddToQueue (ArgSong (song_of "x")) JsUndefined)]
          (initial (set_autoplay true (queue_of ["a"])) []) = Some s
        /\ map id (songs (sys_queue s)) = ["a"; "x"]
        /\ sys_tickets s = [0%nat]
        /\ ~ serial (sys_log s)).
Proof.
  split; [reflexivity|]. eexists. split; [vm_compute; reflexivity|].
  split; [reflexivity|]. split; [reflexivity|].
  intros [st Hst]. vm_compute in Hst. discriminate.
Qed.

(** * Further properties of the queue *)

(** ** [pause] and [resume] *)

Lemma run_pause (w : World) :
  run pause w =
  let q := w_queue w in
  if paused q then (Thrown PAUSED, w, [EvQueuing; EvGet; EvResolve])
  else (Returned (set_paused true q), with_queue (set_paused true q) w,
        [EvQueuing; EvGet; EvPut; EvVoice VoicePause; EvGet; EvResolve]).
Proof.
  unfold pause. rewrite run_locked. cbn.
  destruct (paused (w_queue w)); reflexivity.
Qed.

Lemma run_resume (w : World) :
  run resume w =
  let q := w_queue w in
  if paused q
  then (Returned (set_paused false q), with_queue (set_paused false q) w,
        [EvQueuing; EvGet; EvPut; EvVoice VoiceUnpause; EvGet; EvResolve])
  else (Thrown RESUMED, w, [EvQueuing; EvGet; EvResolve]).
Proof.
  unfold resume. rewrite run_locked. cbn.
  destruct (paused (w_queue w)); reflexivity.
Qed.

(** X1: [pause] on a queue that is already paused throws PAUSED, and
    [resume] on a queue that is not paused throws RESUMED; in both cases the
    queue is left as it was, the voice connection is not called, and the
    ticket of the task queue is released all the same. *)
Theorem pause_resume_refused (w : World) :
  let q := w_queue w in
  (paused q = true ->
   result pause w = Thrown PAUSED /\ final pause w = q
   /\ events pause w = [EvQueuing; EvGet; EvResolve])
  /\ (paused q = false ->
      result resume w = Thrown RESUMED /\ final resume w = q
      /\ events resume w = [EvQueuing; EvGet; EvResolve]).
Proof.
  cbv zeta. unfold result, final, after, events.
  rewrite run_pause, run_resume. cbv zeta.
  split; intros ->; repeat split.
Qed.

Lemma pause_resume_refused_witness :
  result pause (after pause (world_of (queue_of ["a"]))) = Thrown PAUSED
  /\ result resume (world_of (queue_of ["a"])) = Thrown RESUMED.
Proof.
  split.
  - apply (pause_resume_refused (after pause (world_of (queue_of ["a"])))).
    reflexivity.
  - apply (pause_resume_refused (world_of (queue_of ["a"]))). reflexivity.
Defined.

(** X2: on a queue that is not paused, [pause] sets [paused] and calls
    [voice.pause()] once, and a [resume] after it calls [voice.unpause()]
    once and gives back exactly the queue there was; both return the
    queue. *)
Theorem pause_then_resume (w : World) :
  paused (w_queue w) = false ->
  let q := w_queue w in
  result pause w = Returned (set_paused true q)
  /\ voice_calls (events pause w) = [VoicePause]
  /\ result resume (after pause w) = Returned q
  /\ voice_calls (events resume (after pause w)) = [VoiceUnpause]
  /\ final resume (after pause w) = q.
Proof.
  intros Hp. cbv zeta. unfold result, final, after, events.
  rewrite run_pause. cbv zeta. rewrite Hp. cbn [fst snd].
  rewrite run_resume. cbn.
  assert (set_paused false (set_paused true (w_queue w)) = w_queue w) as ->.
  { destruct (w_queue w). cbn in *. subst. reflexivity. }
  repeat split.
Qed.

Lemma pause_then_resume_witness :
  final resume (after pause (world_of (queue_of ["a"; "b"]))) = queue_of ["a"; "b"].
Proof.
  apply (pause_then_resume (world_of (queue_of ["a"; "b"]))). reflexivity.
Defined.

(** ** [previous] outside the repeat mode QUEUE *)

Lemma run_previous (w : World) :
  run previous w =
  let q := w_queue w in
  if negb (savePreviousSongs q)
  then (Thrown DISABLED_OPTION, w, [EvQueuing; EvGet; EvResolve])
  else if (length (previousSongs q) =? 0)%nat
          && negb (mode_eq (repeatMode q) QUEUE)
  then (Thrown NO_PREVIOUS, w, [EvQueuing; EvGet; EvResolve])
  else (Returned (if mode_eq (repeatMode q) QUEUE then last (songs q)
                  else last (previousSongs q)),
        with_queue (set_prev true q) w,
        [EvQueuing; EvGet; EvPut; EvVoice VoiceStop; EvResolve]).
Proof.
  unfold previous. rewrite run_locked. cbn.
  destruct (savePreviousSongs (w_queue w)); [|reflexivity]. cbn.
  destruct ((length (previousSongs (w_queue w)) =? 0)%nat
            && negb (mode_eq (repeatMode (w_queue w)) QUEUE)); [reflexivity|].
  cbn. rewrite !js_index_last. reflexivity.
Qed.



(** ** [play] and [seek] *)

Lemma run_play (emitPlaySong : bool) (w : World) :
  run (play emitPlaySong) w =
  let q := w_queue w in
  if stopped q then (Thrown QUEUE_STOPPED, w, [EvGet])
  else (Returned tt, with_queue (set_playing true q) w,
        [EvGet; EvPut; EvManager (PlaySong emitPlaySong)]).
Proof. unfold play. cbn. destruct (stopped (w_queue w)); reflexivity. Qed.

(** X4: [seek] throws INVALID_TYPE for an argument that is not a number and
    NUMBER_COMPARE for NaN and for a negative number, leaving the queue as
    it was. For any other number and a queue that is not stopped it stores
    the time in [_beginTime], sets [playing], asks the manager to play
    without the PLAY_SONG event, and returns the queue. On a stopped queue
    it throws QUEUE_STOPPED, but only after it has stored the time. *)
Theorem seek_stores_time (w : World) :
  let q := w_queue w in
  (forall v, (forall n, v <> JsNum n) ->
     result (seek v) w = Thrown INVALID_TYPE /\ final (seek v) w = q)
  /\ (forall time, Num.isNaN time = true \/ Num.lt time (num_of_Z 0) = true ->
        result (seek (JsNum time)) w = Thrown NUMBER_COMPARE
        /\ final (seek (JsNum time)) w = q)
  /\ (forall time,
        Num.isNaN time = false -> Num.lt time (num_of_Z 0) = false ->
        (stopped q = false ->
         result (seek (JsNum time)) w
         = Returned (set_playing true (set_beginTime time q))
         /\ final (seek (JsNum time)) w = set_playing true (set_beginTime time q)
         /\ events (seek (JsNum time)) w
            = [EvGet; EvPut; EvGet; EvPut; EvManager (PlaySong false); EvGet])
        /\ (stopped q = true ->
            result (seek (JsNum time)) w = Thrown QUEUE_STOPPED
            /\ final (seek (JsNum time)) w = set_beginTime time q
            /\ EvManager (PlaySong false) ∉ events (seek (JsNum time)) w)).
Proof.
  cbv zeta. unfold result, final, after, events. split; [|split].
  - intros v Hv. destruct v; try (split; reflexivity).
    exfalso. apply (Hv n). reflexivity.
  - intros time H. unfold seek.
    assert (Num.isNaN time || Num.lt time (num_of_Z 0) = true) as ->
      by (destruct H as [-> | ->]; [reflexivity | apply Bool.orb_true_r]).
    split; reflexivity.
  - intros time Hnan Hlt. unfold seek. rewrite Hnan, Hlt.
    cbn [orb bind get put perform run handle w_queue with_queue].
    rewrite run_bind, run_play.
    cbn [w_queue with_queue stopped set_beginTime].
    split; intros ->; cbn; repeat split.
    intros H. repeat (apply elem_of_cons in H as [H | H]; [discriminate|]).
    inversion H.
Qed.

Lemma seek_stores_time_witness :
  final (seek (JsInt 42)) (world_of (queue_of ["a"]))
  = set_playing true (set_beginTime (num_of_Z 42) (queue_of ["a"]))
  /\ final (seek (JsInt 42)) (after remove (world_of (queue_of ["a"])))
     = set_beginTime (num_of_Z 42) (removed (queue_of ["a"]))
  /\ result (seek (JsInt (-1))) (world_of (queue_of ["a"]))
     = Thrown NUMBER_COMPARE.
Proof.
  split; [|split].
  - pose proof (seek_stores_time (world_of (queue_of ["a"]))) as H.
    cbv zeta in H. destruct H as (_ & _ & H).
    destruct (H (num_of_Z 42) eq_refl eq_refl) as [H1 _].
    destruct (H1 eq_refl) as (_ & Hf & _). exact Hf.
  - pose proof (seek_stores_time (after remove (world_of (queue_of ["a"])))) as H.
    cbv zeta in H. destruct H as (_ & _ & H).
    destruct (H (num_of_Z 42) eq_refl eq_refl) as [_ H2].
    destruct (H2 eq_refl) as (_ & Hf & _). exact Hf.
  - pose proof (seek_stores_time (world_of (queue_of ["a"]))) as H.
    cbv zeta in H. destruct H as (_ & H & _).
    apply (H (num_of_Z (-1))). right. reflexivity.
Defined.

(** ** [stop] and [remove] *)

Lemma run_remove (w : World) :
  run remove w =
  (Returned tt, with_queue (removed (w_queue w)) w,
   [EvGet; EvPut]
   ++ map (fun e => EvVoice (VoiceOff e)) (default [] (_listeners (w_queue w)))
   ++ [EvManager QueuesRemove; EvManager EmitDeleteQueue]).
Proof.
  unfold remove. cbn [bind get put perform run handle].
  rewrite run_bind.
  destruct (_listeners (w_queue w)) as [evs |]; cbn [default].
  - rewrite run_voice_off_all. reflexivity.
  - reflexivity.
Qed.

(** X5: [stop] never throws. It stops the voice connection, then tears the
    queue down: [playing] and [paused] cleared, [stopped] set, both song
    lists emptied, every other field kept; each listener is taken off the
    voice connection, in order, the queue is removed from the manager and
    DELETE_QUEUE is emitted once; the ticket is released at the end. *)
Theorem stop_tears_down (w : World) :
  let q := w_queue w in
  result stop w = Returned tt
  /\ final stop w = removed q
  /\ events stop w
     = [EvQueuing; EvVoice VoiceStop; EvGet; EvPut]
       ++ map (fun e => EvVoice (VoiceOff e)) (default [] (_listeners q))
       ++ [EvManager QueuesRemove; EvManager EmitDeleteQueue; EvResolve]
  /\ (repeatMode (final stop w) = repeatMode q
      /\ autoplay (final stop w) = autoplay q
      /\ _beginTime (final stop w) = _beginTime q
      /\ _listeners (final stop w) = _listeners q).
Proof.
  cbv zeta. unfold result, final, after, events, stop.
  rewrite run_locked, run_bind. cbn [voice perform run handle].
  rewrite run_remove. cbn [fst snd w_queue with_queue].
  repeat split. cbn [app]. rewrite <- !app_assoc. reflexivity.
Qed.

(** X6: [remove] is idempotent on the queue: a second [remove] (or a
    [stop] after a [remove]) leaves the queue of the first; as
    [_listeners] is not cleared, it takes the same listeners off again. *)
Theorem remove_idempotent (w : World) :
  final remove (after remove w) = final remove w
  /\ final stop (after remove w) = final remove w
  /\ events remove (after remove w) = events remove w.
Proof.
  unfold final, after, events, stop.
  rewrite run_locked, run_bind. cbn [voice perform run handle].
  rewrite !run_remove. cbn [fst snd w_queue with_queue].
  rewrite ?run_remove. cbn [fst snd w_queue with_queue].
  repeat split.
Qed.

(** ** [addToQueue]: what it accepts, and where the songs go *)

Lemma isInteger_Finite (q : Q) :
  Num.isInteger (Finite q) = true <-> exists z, (q == inject_Z z)%Q.
Proof.
  unfold Num.isInteger. split.
  - intros H. apply Pos.eqb_eq in H. exists (Qnum (Qred q)).
    rewrite <- (Qred_correct q) at 1.
    destruct (Qred q) as [n d]. simpl in H. subst d. reflexivity.
  - intros [z Hz]. rewrite (Qred_complete _ _ Hz).
    rewrite Qred_identity; [reflexivity | simpl; apply Z.gcd_1_r].
Qed.

Lemma trunc_integer (q : Q) (z : Z) : (q == inject_Z z)%Q -> Num.trunc q = z.
Proof.
  unfold Num.trunc, Qeq. simpl. intros H. rewrite Z.mul_1_r in H.
  rewrite H. apply Z.quot_mul. discriminate.
Qed.

Lemma integer_of_position_is (v : JsValue) (z : Z) :
  position_is v z -> integer_of_position v = Some z.
Proof.
  intros [[-> ->] | (q & -> & Hq)]; [reflexivity|].
  unfold integer_of_position.
  rewrite (proj2 (isInteger_Finite q)) by (exists z; exact Hq).
  rewrite (trunc_integer q z Hq). reflexivity.
Qed.

Lemma integer_of_position_none (v : JsValue) :
  (forall z, ~ position_is v z) -> integer_of_position v = None.
Proof.
  intros H. unfold integer_of_position.
  destruct v as [| | b | s | n]; try reflexivity.
  - exfalso. apply (H 0). left. split; reflexivity.
  - destruct (Num.isInteger n) eqn:E; [|reflexivity].
    destruct n as [| neg | q]; try discriminate E.
    apply isInteger_Finite in E as [z Hz].
    exfalso. apply (H z). right. exists q. split; [reflexivity | exact Hz].
Qed.

(** X7: [addToQueue] checks the queue before its arguments: on a stopped
    queue it throws QUEUE_STOPPED whatever it is given. Otherwise it throws
    INVALID_TYPE for a falsy song, for an empty array, and for a position
    that is not an integer (a string, [null], NaN, an infinity, a
    fraction). In all these cases the queue is left as it was. *)
Theorem addToQueue_validation (w : World) :
  let q := w_queue w in
  (stopped q = true ->
   forall song position,
     result (addToQueue song position) w = Thrown QUEUE_STOPPED
     /\ final (addToQueue song position) w = q)
  /\ (stopped q = false ->
      (forall song position,
         song = ArgFalsy \/ song = ArgArray [] ->
         result (addToQueue song position) w = Thrown INVALID_TYPE
         /\ final (addToQueue song position) w = q)
      /\ (forall song position,
            (forall z, ~ position_is position z) ->
            result (addToQueue song position) w = Thrown INVALID_TYPE
            /\ final (addToQueue song position) w = q)).
Proof.
  cbv zeta. unfold result, final, after, addToQueue.
  cbn [bind get perform run handle]. split.
  - intros -> song position. split; reflexivity.
  - intros ->. split.
    + intros song position [-> | ->]; split; reflexivity.
    + intros song position Hpos.
      rewrite (integer_of_position_none position Hpos).
      destruct (songs_of_arg song); split; reflexivity.
Qed.

Lemma addToQueue_validation_witness :
  result (addToQueue (ArgSong (song_of "x")) (JsNum (Finite (1 # 2))))
    (world_of (queue_of ["a"])) = Thrown INVALID_TYPE
  /\ result (addToQueue (ArgArray []) JsUndefined)
       (after remove (world_of (queue_of ["a"]))) = Thrown QUEUE_STOPPED.
Proof.
  split.
  - pose proof (addToQueue_validation (world_of (queue_of ["a"]))) as H.
    cbv zeta in H. destruct H as [_ H]. destruct (H eq_refl) as [_ H'].
    apply H'. intros z [[Hz _] | (q & [= <-] & Hq)]; [discriminate|].
    unfold Qeq in Hq. simpl in Hq. lia.
  - pose proof (addToQueue_validation
                  (after remove (world_of (queue_of ["a"])))) as H.
    cbv zeta in H. destruct H as [H _]. apply (H eq_refl).
Defined.

Lemma run_addToQueue_at (w : World) (song : SongArg) (items : list Song)
  (position : JsValue) (z : Z) :
  stopped (w_queue w) = false ->
  songs_of_arg song = Some items ->
  position_is position z ->
  let q := w_queue w in
  let q' :=
    if z <=? 0 then set_songs (songs q ++ items) q
    else set_songs (splice_insert (Z.to_nat z) items (songs q)) q in
  result (addToQueue song position) w = Returned q'
  /\ final (addToQueue song position) w = q'.
Proof.
  intros Hs Hi Hp. unfold result, final, after, addToQueue.
  cbn [bind get perform run handle].
  rewrite Hs, Hi, (integer_of_position_is position z Hp).
  destruct (z <=? 0); cbn; split; reflexivity.
Qed.

(** X8: an accepted [addToQueue] only adds: [songs] afterwards is a
    permutation of the old songs followed by the new ones, the old songs
    keep their order and so do the new ones, no other field changes, and
    the song of index [0], the one playing, stays where it is. A position
    at or beyond the end of [songs] appends, as a position [<= 0] does. *)
Theorem addToQueue_only_adds (w : World) (song : SongArg) (items : list Song)
  (position : JsValue) (z : Z) :
  stopped (w_queue w) = false ->
  songs_of_arg song = Some items ->
  position_is position z ->
  let q := w_queue w in
  let l := songs (final (addToQueue song position) w) in
  final (addToQueue song position) w = set_songs l q
  /\ l ≡ₚ songs q ++ items
  /\ songs q `sublist_of` l
  /\ items `sublist_of` l
  /\ (songs q <> [] -> l !! 0%nat = songs q !! 0%nat)
  /\ (z <= 0 \/ Z.of_nat (length (songs q)) <= z -> l = songs q ++ items).
Proof.
  intros Hs Hi Hp. cbv zeta.
  destruct (run_addToQueue_at w song items position z Hs Hi Hp) as [_ ->].
  destruct (Z.leb_spec z 0) as [Hz | Hz]; cbn [songs set_songs].
  - split; [reflexivity|]. split; [reflexivity|].
    split; [apply sublist_inserts_r; reflexivity|].
    split; [apply sublist_inserts_l; reflexivity|].
    split; [|reflexivity].
    intros Hne. destruct (songs (w_queue w)); [contradiction | reflexivity].
  - unfold splice_insert. set (k := Z.to_nat z). set (old := songs (w_queue w)).
    split; [reflexivity|]. split.
    { rewrite (Permutation_app_comm items), app_assoc, take_drop. reflexivity. }
    split.
    { rewrite <- (take_drop k old) at 1.
      apply sublist_app; [reflexivity|]. apply sublist_inserts_l. reflexivity. }
    split.
    { apply sublist_inserts_l, sublist_inserts_r. reflexivity. }
    split.
    { intros Hne. destruct old as [| x old']; [contradiction|].
      assert (k = S (Nat.pred k)) as -> by lia. reflexivity. }
    intros [Hle | Hge]; [lia|].
    rewrite take_ge, drop_ge by (unfold old, k in *; lia).
    rewrite app_nil_r. reflexivity.
Qed.

Lemma addToQueue_only_adds_witness :
  songs (final (addToQueue (ArgArray [song_of "x"; song_of "y"]) (JsInt 7))
           (world_of (queue_of ["a"; "b"])))
  = map song_of ["a"; "b"; "x"; "y"].
Proof.
  pose proof (addToQueue_only_adds (world_of (queue_of ["a"; "b"]))
                (ArgArray [song_of "x"; song_of "y"])
                [song_of "x"; song_of "y"] (JsInt 7) 7 eq_refl eq_refl) as H.
  cbv zeta in H. destruct H as (_ & _ & _ & _ & _ & H).
  - right. exists (inject_Z 7). split; reflexivity.
  - apply H. right. simpl. lia.
Defined.

(** ** [jump] *)

Lemma map_id_stub (l : list Song) : map id (map stub l) = map id l.
Proof. induction l as [| s l IH]; [reflexivity|]. simpl. rewrite IH. reflexivity. Qed.

(** X9: whatever [jump] is given, it loses no song and invents none: the
    identifiers of the history followed by those of [songs] are the same
    before and after, and with [savePreviousSongs] so are the songs
    themselves. It touches no field besides [songs], [previousSongs],
    [_next] and [_prev], and when it throws it leaves the queue as it
    was. *)
Theorem jump_conserves (w : World) (position : JsValue) :
  let q := w_queue w in
  let q' := final (jump position) w in
  map id (previousSongs q' ++ songs q') = map id (previousSongs q ++ songs q)
  /\ (savePreviousSongs q = true ->
      previousSongs q' ++ songs q' = previousSongs q ++ songs q)
  /\ q' = set_next (_next q')
            (set_prev (_prev q')
               (set_songs (songs q') (set_previousSongs (previousSongs q') q)))
  /\ (forall e, result (jump position) w = Thrown e -> q' = q).
Proof.
  cbv zeta. unfold result, final, after, jump. rewrite ends_locked.
  destruct (w_queue w) as [sg pv st pl pa rm au bt nx pr ls sv cm] eqn:Hq.
  destruct position as [| | b | s | n];
    try (cbn; rewrite Hq; repeat split; reflexivity).
  cbn [bind get perform run handle]. rewrite Hq.
  cbn [songs previousSongs savePreviousSongs set_prev set_next set_songs
       set_previousSongs].
  destruct (Num.falsy n || Num.gt n (num_of_nat (length sg))
            || Num.gt (Num.neg n) (num_of_nat (length pv)));
    [cbn; rewrite Hq; repeat split; reflexivity|].
  destruct (Num.gt n (num_of_Z 0)).
  - cbn. set (start := Num.splice_start (length sg) (Num.add_int n (-1))).
    split; [|split; [|split; [reflexivity | discriminate]]].
    + rewrite <- !app_assoc, !map_app.
      destruct sv; rewrite ?map_id_stub, <- !map_app, take_drop; reflexivity.
    + intros ->. rewrite <- app_assoc, take_drop. reflexivity.
  - destruct sv; [|cbn; rewrite Hq; repeat split; discriminate].
    cbn [negb].
    destruct (negb (Num.eq n (num_of_Z (-1)))).
    + cbn. set (start := Num.splice_start (length pv) (Num.add_int n 1)).
      rewrite app_assoc, take_drop. repeat split. discriminate.
    + cbn. repeat split. discriminate.
Qed.

Lemma jump_conserves_witness :
  let q := set_previousSongs [song_of "x"] (queue_of ["a"; "b"; "c"]) in
  previousSongs (final (jump (JsInt 3)) (world_of q))
  ++ songs (final (jump (JsInt 3)) (world_of q))
  = map song_of ["x"; "a"; "b"; "c"].
Proof.
  cbv zeta.
  pose proof (jump_conserves
                (world_of (set_previousSongs [song_of "x"]
                             (queue_of ["a"; "b"; "c"]))) (JsInt 3)) as H.
  cbv zeta in H. destruct H as (_ & H & _). apply H. reflexivity.
Defined.

Lemma eq_of_Z (a b : Z) : Num.eq (num_of_Z a) (num_of_Z b) = (a =? b).
Proof.
  unfold Num.eq, num_of_Z. destruct (Z.eqb_spec a b) as [-> | Hne].
  - apply Qeq_bool_iff. reflexivity.
  - destruct (Qeq_bool (inject_Z a) (inject_Z b)) eqn:E; [|reflexivity].
    apply Qeq_bool_iff in E. apply (inject_Z_injective a b) in E. contradiction.
Qed.

Lemma splice_start_add_int_neg (len : nat) (z c : Z) :
  z + c < 0 ->
  Num.splice_start len (Num.add_int (num_of_Z z) c)
  = Z.to_nat (Z.max (Z.of_nat len + (z + c)) 0).
Proof.
  intros H. unfold Num.splice_start, Num.add_int, num_of_Z.
  rewrite trunc_add_int.
  destruct (Z.ltb_spec (z + c) 0); [reflexivity | lia].
Qed.

(** X10: for [songs] of length [L] and [1 <= k <= L], [jump(k)] moves the
    first [k-1] songs to the end of the history (as they are with
    [savePreviousSongs], as identifier-only stubs without), keeps the rest
    as [songs], sets [_next], stops the voice connection once and returns
    the former song of index [k], the one played next; for [k = L] there is
    none and it returns [undefined]. *)
Theorem jump_forward (w : World) (k : nat) :
  (1 <= k <= length (songs (w_queue w)))%nat ->
  let q := w_queue w in
  let moved := take (k - 1) (songs q) in
  result (jump (JsInt (Z.of_nat k))) w = Returned (songs q !! k)
  /\ songs (final (jump (JsInt (Z.of_nat k))) w) = drop (k - 1) (songs q)
  /\ previousSongs (final (jump (JsInt (Z.of_nat k))) w)
     = previousSongs q ++ (if savePreviousSongs q then moved else map stub moved)
  /\ _next (final (jump (JsInt (Z.of_nat k))) w) = true
  /\ voice_calls (events (jump (JsInt (Z.of_nat k))) w) = [VoiceStop]
  /\ (k = length (songs q) ->
      result (jump (JsInt (Z.of_nat k))) w = Returned None).
Proof.
  intros Hk. cbv zeta. unfold result, final, after, events.
  rewrite run_jump_int. cbv zeta.
  assert ((Z.of_nat k =? 0) || (Z.of_nat (length (songs (w_queue w))) <? Z.of_nat k)
          || (Z.of_nat (length (previousSongs (w_queue w))) <? - Z.of_nat k)
          = false) as ->.
  { rewrite (proj2 (Z.eqb_neq _ 0)) by lia.
    rewrite (proj2 (Z.ltb_ge _ (Z.of_nat k))) by lia.
    rewrite (proj2 (Z.ltb_ge _ (- Z.of_nat k))) by lia. reflexivity. }
  rewrite (proj2 (Z.ltb_lt 0 (Z.of_nat k))) by lia.
  rewrite splice_start_add_int by lia.
  replace (Z.to_nat (Z.min (Z.of_nat k + -1)
                       (Z.of_nat (length (songs (w_queue w))))))
    with (k - 1)%nat by lia.
  cbn. rewrite lookup_drop.
  replace (k - 1 + 1)%nat with k by lia.
  repeat split. intros ->. f_equal. apply lookup_ge_None_2. lia.
Qed.

Lemma jump_forward_witness :
  result (jump (JsInt 2)) (world_of (queue_of ["a"; "b"; "c"]))
  = Returned (Some (song_of "c"))
  /\ map id (songs (final (jump (JsInt 2)) (world_of (queue_of ["a"; "b"; "c"]))))
     = ["b"; "c"].
Proof.
  pose proof (jump_forward (world_of (queue_of ["a"; "b"; "c"])) 2) as H.
  cbv zeta in H. destruct H as (Hr & Hs & _); [simpl; lia|].
  split; [exact Hr|]. change (JsInt 2) with (JsInt (Z.of_nat 2)).
  rewrite Hs. reflexivity.
Defined.

(** X11: for a history of length [P] and [1 <= k <= P], [jump(-k)] needs
    [savePreviousSongs]: without it, it throws DISABLED_OPTION and changes
    nothing. With it, it returns the [k]-th most recent song of the
    history and leaves it the last of the history, moves the [k-1] songs
    after it to the front of [songs], sets [_prev] and stops the voice
    connection once. *)
Theorem jump_backward (w : World) (k : nat) :
  (1 <= k <= length (previousSongs (w_queue w)))%nat ->
  let q := w_queue w in
  let P := length (previousSongs q) in
  let p := jump (JsInt (- Z.of_nat k)) in
  (savePreviousSongs q = false ->
   result p w = Thrown DISABLED_OPTION /\ final p w = q
   /\ voice_calls (events p w) = [])
  /\ (savePreviousSongs q = true ->
      result p w = Returned (previousSongs q !! (P - k)%nat)
      /\ previousSongs (final p w) = take (P - k + 1) (previousSongs q)
      /\ songs (final p w) = drop (P - k + 1) (previousSongs q) ++ songs q
      /\ last (previousSongs (final p w)) = previousSongs q !! (P - k)%nat
      /\ _prev (final p w) = true
      /\ voice_calls (events p w) = [VoiceStop]).
Proof.
  intros Hk. cbv zeta. unfold result, final, after, events.
  rewrite run_jump_int. cbv zeta.
  set (P := length (previousSongs (w_queue w))) in *.
  assert ((- Z.of_nat k =? 0)
          || (Z.of_nat (length (songs (w_queue w))) <? - Z.of_nat k)
          || (Z.of_nat P <? - - Z.of_nat k) = false) as ->.
  { rewrite (proj2 (Z.eqb_neq _ 0)) by lia.
    rewrite (proj2 (Z.ltb_ge _ (- Z.of_nat k))) by lia.
    rewrite (proj2 (Z.ltb_ge _ (- - Z.of_nat k))) by lia. reflexivity. }
  rewrite (proj2 (Z.ltb_ge 0 (- Z.of_nat k))) by lia.
  split; intros ->; cbn [negb]; [repeat split|].
  rewrite eq_of_Z.
  cbn [previousSongs songs set_prev set_songs set_previousSongs].
  fold P.
  assert (take (P - k + 1) (previousSongs (w_queue w)) !! (P - k)%nat
          = previousSongs (w_queue w) !! (P - k)%nat) as Hlook
    by (apply lookup_take_lt; lia).
  assert (length (take (P - k + 1) (previousSongs (w_queue w)))
          = (P - k + 1)%nat) as Hlen
    by (rewrite length_take; fold P; lia).
  assert (forall l : list Song,
            length l = (P - k + 1)%nat ->
            js_index l (Z.of_nat (length l) - 1) = l !! (P - k)%nat) as Hidx.
  { intros l Hl. unfold js_index. rewrite Hl.
    destruct (Z.ltb_spec (Z.of_nat (P - k + 1) - 1) 0); [lia|].
    f_equal. lia. }
  destruct (Z.eqb_spec (- Z.of_nat k) (-1)) as [E | E]; cbn [negb].
  - assert (k = 1%nat) as -> by lia.
    replace (P - 1 + 1)%nat with P in * by lia.
    rewrite take_ge, drop_ge in * by (fold P; lia).
    cbn. rewrite Hidx by (fold P; lia).
    rewrite <- js_index_last, Hidx by (fold P; lia). repeat split.
  - rewrite splice_start_add_int_neg by lia.
    replace (Z.to_nat (Z.max (Z.of_nat P + (- Z.of_nat k + 1)) 0))
      with (P - k + 1)%nat by lia.
    cbn. rewrite Hidx, Hlook by exact Hlen.
    rewrite <- js_index_last, Hidx, Hlook by exact Hlen. repeat split.
Qed.

Lemma jump_backward_witness :
  let q := set_previousSongs (map song_of ["x"; "y"; "z"]) (queue_of ["a"]) in
  result (jump (JsInt (-2))) (world_of q) = Returned (Some (song_of "y"))
  /\ map id (songs (final (jump (JsInt (-2))) (world_of q))) = ["z"; "a"].
Proof.
  cbv zeta.
  pose proof (jump_backward
                (world_of (set_previousSongs (map song_of ["x"; "y"; "z"])
                             (queue_of ["a"]))) 2) as H.
  cbv zeta in H. destruct H as [_ H]; [simpl; lia|].
  destruct (H eq_refl) as (Hr & _ & Hs & _).
  split; [exact Hr|]. change (JsInt (-2)) with (JsInt (- Z.of_nat 2)).
  rewrite Hs. reflexivity.
Defined.

(** X12: [jump] throws INVALID_TYPE for an argument that is not a number,
    and NO_SONG_POSITION for [0], for an integer above the length of
    [songs], and for a negative integer whose size is above the length of
    the history. It then leaves the queue as it was and does not call the
    voice connection, and the ticket it took is released. *)
Theorem jump_refused (w : World) :
  let q := w_queue w in
  (forall v, (forall n, v <> JsNum n) ->
     result (jump v) w = Thrown INVALID_TYPE /\ final (jump v) w = q
     /\ events (jump v) w = [EvQueuing; EvResolve])
  /\ (forall z,
        z = 0 \/ Z.of_nat (length (songs q)) < z
        \/ z < - Z.of_nat (length (previousSongs q)) ->
        result (jump (JsInt z)) w = Thrown NO_SONG_POSITION
        /\ final (jump (JsInt z)) w = q
        /\ events (jump (JsInt z)) w = [EvQueuing; EvGet; EvResolve]).
Proof.
  cbv zeta. unfold result, final, after, events. split.
  - intros v Hv. unfold jump. rewrite run_locked.
    destruct v; try (repeat split; reflexivity).
    exfalso. apply (Hv n). reflexivity.
  - intros z Hz. rewrite run_jump_int. cbv zeta.
    assert ((z =? 0) || (Z.of_nat (length (songs (w_queue w))) <? z)
            || (Z.of_nat (length (previousSongs (w_queue w))) <? - z) = true)
      as ->.
    { destruct Hz as [-> | [Hz | Hz]].
      - reflexivity.
      - rewrite (proj2 (Z.ltb_lt _ z)) by lia.
        rewrite Bool.orb_true_r. reflexivity.
      - rewrite (proj2 (Z.ltb_lt _ (- z))) by lia.
        apply Bool.orb_true_r. }
    repeat split.
Qed.

Lemma jump_refused_witness :
  result (jump (JsInt (-1))) (world_of (queue_of ["a"; "b"]))
  = Thrown NO_SONG_POSITION
  /\ result (jump (JsString "2")) (world_of (queue_of ["a"; "b"]))
     = Thrown INVALID_TYPE.
Proof.
  pose proof (jump_refused (world_of (queue_of ["a"; "b"]))) as H.
  cbv zeta in H. destruct H as [Hv Hz]. split.
  - apply (Hz (-1)). right. right. simpl. lia.
  - apply (Hv (JsString "2")). discriminate.
Defined.

(** ** What the commands never do *)

Lemma ends_pause (w : World) :
  (run pause w).1 =
  if paused (w_queue w) then (Thrown PAUSED, w)
  else (Returned (set_paused true (w_queue w)),
        with_queue (set_paused true (w_queue w)) w).
Proof. rewrite run_pause. cbv zeta. destruct (paused (w_queue w)); reflexivity. Qed.

Lemma ends_resume (w : World) :
  (run resume w).1 =
  if paused (w_queue w)
  then (Returned (set_paused false (w_queue w)),
        with_queue (set_paused false (w_queue w)) w)
  else (Thrown RESUMED, w).
Proof. rewrite run_resume. cbv zeta. destruct (paused (w_queue w)); reflexivity. Qed.

(** [jump] keeps [stopped], undoes nothing when it throws, and throws on a
    queue without songs and without history. *)
Lemma jump_keeps (w : World) (position : JsValue) :
  let q := w_queue w in
  stopped (final (jump position) w) = stopped q
  /\ (forall e, result (jump position) w = Thrown e ->
        final (jump position) w = q)
  /\ (songs q = [] -> previousSongs q = [] -> final (jump position) w = q).
Proof.
  cbv zeta. unfold result, final, after, jump. rewrite ends_locked.
  destruct position as [| | b | s | n]; try (cbn; repeat split; reflexivity).
  cbn [bind get perform run handle].
  destruct (Num.falsy n || Num.gt n (num_of_nat (length (songs (w_queue w))))
            || Num.gt (Num.neg n)
                 (num_of_nat (length (previousSongs (w_queue w))))) eqn:Hcheck;
    [cbn; repeat split; reflexivity|].
  assert (songs (w_queue w) = [] -> previousSongs (w_queue w) = [] -> False)
    as Hempty.
  { intros Hs Hp. rewrite Hs, Hp in Hcheck. simpl length in Hcheck.
    rewrite no_position_in_empty in Hcheck. discriminate. }
  destruct (Num.gt n (num_of_Z 0)).
  - cbn. split; [reflexivity|]. split; [discriminate|].
    intros Hs Hp. destruct (Hempty Hs Hp).
  - destruct (savePreviousSongs (w_queue w));
      [|cbn; repeat split; reflexivity].
    cbn [negb]. destruct (negb (Num.eq n (num_of_Z (-1)))); cbn;
      (split; [reflexivity|]; split; [discriminate|]);
      intros Hs Hp; destruct (Hempty Hs Hp).
Qed.

(** One command: [stopped] is only ever set, by [stop] alone, and a
    stopped queue stays without songs. *)
Lemma command_keeps (c : Command) (w : World) :
  let q := w_queue w in
  let q' := final (program c) w in
  (stopped q' = true -> stopped q = true \/ c = CmdStop)
  /\ (stopped q = true -> stopped q' = true)
  /\ (stopped_is_empty q -> stopped_is_empty q').
Proof.
  cbv zeta. unfold stopped_is_empty, final, after.
  destruct c as [song position | | | | | | position | mode | time |];
    cbn [program Returns].
  - unfold addToQueue. cbn [bind get perform run handle].
    destruct (stopped (w_queue w)) eqn:Hst; [cbn; rewrite Hst; auto|].
    destruct (songs_of_arg song) as [items |]; [|cbn; rewrite Hst; auto].
    destruct (integer_of_position position) as [z |];
      [|cbn; rewrite Hst; auto].
    destruct (z <=? 0); cbn; rewrite Hst;
      (split; [auto|]; split; [discriminate|]; intros _; discriminate).
  - rewrite ends_pause.
    destruct (paused (w_queue w)); cbn; auto.
  - rewrite ends_resume.
    destruct (paused (w_queue w)); cbn; auto.
  - rewrite ends_skip. cbv zeta.
    destruct (length (songs (w_queue w)) <=? 1)%nat; [|cbn; auto].
    destruct (autoplay (w_queue w)); [|cbn; auto].
    pose proof (addRelatedSong_cases w) as H.
    destruct H as [Hs | cur rest Hs Hc | cur rest s l Hs Hc Hst
                  | cur rest s l Hs Hc Hst q0 s0']; cbn; auto.
    subst q0. rewrite Hst.
    split; [auto|]. split; [discriminate|]. intros _; discriminate.
  - rewrite run_previous. cbv zeta.
    destruct (negb (savePreviousSongs (w_queue w))); [cbn; auto|].
    destruct ((length (previousSongs (w_queue w)) =? 0)%nat
              && negb (mode_eq (repeatMode (w_queue w)) QUEUE)); cbn; auto.
  - pose proof (ends_shuffle w) as H.
    destruct (songs (w_queue w)) as [| playing rest] eqn:Hs.
    + rewrite H. cbn. rewrite Hs. auto.
    + destruct H as (rest' & w' & -> & Hq & Hperm). cbn [fst snd]. rewrite Hq.
      cbn. split; [auto|]. split; [auto|].
      intros Hinv Hst. destruct (Hinv Hst) as [Hnil _]. discriminate.
  - destruct (jump_keeps w position) as (Hst & _ & Hempty).
    unfold final, after in Hst, Hempty. rewrite Hst.
    split; [auto|]. split; [auto|].
    intros Hinv Hstop. destruct (Hinv Hstop) as [Hs Hp].
    rewrite (Hempty Hs Hp). auto.
  - unfold setRepeatMode.
    destruct mode as [| | b | s | n];
      [cbn; auto | cbn; auto | cbn; auto | |].
    + destruct (RepeatMode_of_value (JsString s)); cbn; auto.
    + destruct (RepeatMode_of_value (JsNum n)); cbn; auto.
  - unfold seek.
    destruct time as [| | b | s | n];
      [cbn; auto | cbn; auto | cbn; auto | cbn; auto |].
    destruct (Num.isNaN n || Num.lt n (num_of_Z 0)); [cbn; auto|].
    cbn [bind get put perform run handle w_queue with_queue].
    rewrite run_bind, run_play. cbv zeta.
    cbn [w_queue with_queue stopped set_beginTime].
    destruct (stopped (w_queue w)) eqn:Hst; cbn; rewrite ?Hst; auto.
  - unfold stop. rewrite ends_locked, ends_bind.
    cbn [voice perform run handle fst snd].
    rewrite run_remove. cbn. auto.
Qed.

(** X13: through any sequence of commands, each run to its end, [stopped]
    is never cleared, it is only ever set by [stop], and a stopped queue
    never gets a song back: if a stopped queue has no song and no history
    before, it has none after. *)
Theorem stopped_for_good (cs : list Command) (w : World) :
  let q := w_queue w in
  let q' := w_queue (after_all cs w) in
  (stopped q = true -> stopped q' = true)
  /\ (stopped_is_empty q -> stopped_is_empty q')
  /\ (stopped q = false -> stopped q' = true -> CmdStop ∈ cs).
Proof.
  cbv zeta. revert w. induction cs as [| c cs IH]; intros w.
  - cbn. split; [auto|]. split; [auto|]. congruence.
  - cbn [after_all].
    destruct (command_keeps c w) as (Honly & Hstays & Hinv).
    destruct (IH (after (program c) w)) as (IH1 & IH2 & IH3).
    fold (final (program c) w) in IH1, IH2, IH3.
    split; [auto|]. split; [auto|].
    intros Hq Hq'.
    destruct (stopped (final (program c) w)) eqn:Hmid.
    + destruct (Honly eq_refl) as [Hst | ->]; [congruence | left].
    + right. apply IH3; [reflexivity | exact Hq'].
Qed.

Lemma stopped_for_good_witness :
  let w := after_all [CmdPause; CmdStop;
                      CmdAddToQueue (ArgSong (song_of "x")) JsUndefined;
                      CmdJump (JsInt 1); CmdSeek (JsInt 3)]
             (world_of (queue_of ["a"; "b"])) in
  stopped (w_queue w) = true /\ songs (w_queue w) = []
  /\ previousSongs (w_queue w) = [].
Proof.
  cbv zeta.
  pose proof (stopped_for_good
                [CmdAddToQueue (ArgSong (song_of "x")) JsUndefined;
                 CmdJump (JsInt 1); CmdSeek (JsInt 3)]
                (after_all [CmdPause; CmdStop] (world_of (queue_of ["a"; "b"]))))
    as H.
  cbv zeta in H. destruct H as (H1 & H2 & _).
  split; [apply H1; reflexivity|].
  apply H2; [intros _; split; reflexivity | apply H1; reflexivity].
Defined.

(** X14: a command that throws leaves the queue exactly as it was; the one
    exception is [seek], which has stored the time when [play] refuses a
    stopped queue. *)
Theorem thrown_leaves_queue (c : Command) (w : World) (e : DisTubeError) :
  (forall time, c <> CmdSeek time) ->
  result (program c) w = Thrown e ->
  final (program c) w = w_queue w.
Proof.
  intros Hseek. unfold result, final, after.
  destruct c as [song position | | | | | | position | mode | time |];
    cbn [program Returns].
  - unfold addToQueue. cbn [bind get perform run handle].
    destruct (stopped (w_queue w)); [reflexivity|].
    destruct (songs_of_arg song) as [items |]; [|reflexivity].
    destruct (integer_of_position position) as [z |]; [|reflexivity].
    destruct (z <=? 0); cbn; discriminate.
  - rewrite ends_pause. destruct (paused (w_queue w)); cbn;
      [reflexivity | discriminate].
  - rewrite ends_resume. destruct (paused (w_queue w)); cbn;
      [discriminate | reflexivity].
  - rewrite ends_skip. cbv zeta.
    destruct (length (songs (w_queue w)) <=? 1)%nat; [|cbn; discriminate].
    destruct (autoplay (w_queue w)); [|reflexivity].
    destruct (addRelatedSong_cases w); cbn; try reflexivity. discriminate.
  - rewrite run_previous. cbv zeta.
    destruct (negb (savePreviousSongs (w_queue w))); [reflexivity|].
    destruct ((length (previousSongs (w_queue w)) =? 0)%nat
              && negb (mode_eq (repeatMode (w_queue w)) QUEUE)); cbn;
      [reflexivity | discriminate].
  - pose proof (ends_shuffle w) as H.
    destruct (songs (w_queue w)) as [| playing rest].
    + rewrite H. reflexivity.
    + destruct H as (rest' & w' & -> & _). discriminate.
  - destruct (jump_keeps w position) as (_ & H & _). apply H.
  - unfold setRepeatMode.
    destruct mode as [| | b | s | n];
      [cbn; discriminate | reflexivity | reflexivity | |].
    + destruct (RepeatMode_of_value (JsString s)); cbn;
        [discriminate | reflexivity].
    + destruct (RepeatMode_of_value (JsNum n)); cbn;
        [discriminate | reflexivity].
  - destruct (Hseek time eq_refl).
  - unfold stop. rewrite ends_locked, ends_bind.
    cbn [voice perform run handle fst snd].
    rewrite run_remove. discriminate.
Qed.

Lemma thrown_leaves_queue_witness :
  final (program CmdSkip) (world_of (queue_of ["a"])) = queue_of ["a"].
Proof.
  apply (thrown_leaves_queue CmdSkip (world_of (queue_of ["a"])) NO_UP_NEXT).
  - discriminate.
  - reflexivity.
Defined.

(** ** [shuffle] as Fisher-Yates *)

Lemma draw_eq (i : nat) (w : World) :
  draw i w =
  (match w_entropy w with [] => 0%nat | r :: _ => (r mod S i)%nat end,
   mkWorld (w_queue w) (tail (w_entropy w)) (w_related w)).
Proof. unfold draw. destruct w as [q [| r ent] rel]; reflexivity. Qed.

Lemma ends_shuffle_loop_fisher_yates (i : nat) (w : World) :
  (run (shuffle_loop i) w).1 =
  (Returned tt,
   mkWorld (set_songs (fisher_yates i (w_entropy w) (songs (w_queue w)))
              (w_queue w))
     (drop i (w_entropy w)) (w_related w)).
Proof.
  revert w. induction i as [| i IH]; intros w.
  - cbn. rewrite set_songs_same. destruct w; reflexivity.
  - cbn [shuffle_loop]. unfold perform at 1. cbn [bind].
    rewrite ends_Vis. cbn [handle]. rewrite draw_eq. cbn [fst snd].
    unfold get at 1. unfold perform at 1. cbn [bind].
    rewrite ends_Vis. cbn [handle fst snd w_queue].
    unfold put at 1. unfold perform at 1. cbn [bind].
    rewrite ends_Vis. cbn [handle fst snd]. rewrite IH.
    cbn [w_queue w_entropy w_related with_queue songs set_songs fisher_yates].
    destruct (w_entropy w); cbn [tail]; rewrite ?drop_nil; reflexivity.
Qed.

Lemma shuffle_fisher_yates (w : World) (playing : Song) (rest : list Song) :
  songs (w_queue w) = playing :: rest ->
  (run shuffle w).1 =
  let q' := set_songs
              (playing :: fisher_yates (length rest - 1) (w_entropy w) rest)
              (w_queue w) in
  (Returned q',
   mkWorld q' (drop (length rest - 1) (w_entropy w)) (w_related w)).
Proof.
  intros Hs. unfold shuffle. rewrite ends_locked.
  unfold get at 1. unfold perform at 1. cbn [bind].
  rewrite ends_Vis. cbn [handle fst snd]. rewrite Hs.
  unfold put at 1. unfold perform at 1. cbn [bind].
  rewrite ends_Vis. cbn [handle fst snd].
  rewrite ends_bind, ends_shuffle_loop_fisher_yates. reflexivity.
Qed.

Lemma swap_length {A : Type} (i j : nat) (l : list A) :
  length (swap i j l) = length l.
Proof.
  unfold swap. destruct (l !! j), (l !! i); try reflexivity.
  rewrite !length_insert. reflexivity.
Qed.

Lemma swap_app {A : Type} (i j : nat) (p s : list A) :
  (i < length p)%nat -> (j < length p)%nat ->
  swap i j (p ++ s) = swap i j p ++ s.
Proof.
  intros Hi Hj. unfold swap. rewrite !lookup_app_l by assumption.
  destruct (p !! j) as [x |]; [|reflexivity].
  destruct (p !! i) as [y |]; [|reflexivity].
  rewrite (insert_app_l p s i x) by assumption.
  rewrite insert_app_l by (rewrite length_insert; assumption). reflexivity.
Qed.

(** The loop from [i] leaves what lies beyond index [i] alone. *)
Lemma fisher_yates_app {A : Type} (i : nat) (entropy : list nat) (p s : list A) :
  (i < length p)%nat ->
  fisher_yates i entropy (p ++ s) = fisher_yates i entropy p ++ s.
Proof.
  revert entropy p. induction i as [| i IH]; intros entropy p Hi.
  - reflexivity.
  - cbn [fisher_yates].
    set (j := match entropy with [] => 0%nat | r :: _ => (r mod S (S i))%nat end).
    assert (j < length p)%nat as Hj.
    { subst j. destruct entropy as [| r ent]; [lia|].
      pose proof (Nat.mod_upper_bound r (S (S i))). lia. }
    rewrite swap_app by assumption.
    apply IH. rewrite swap_length. lia.
Qed.

Lemma snoc_lookup_last {A : Type} (l : list A) (n : nat) (y : A) :
  length l = S n -> l !! n = Some y -> l = take n l ++ [y].
Proof.
  intros Hlen Hy. rewrite <- (take_drop n l) at 1. f_equal.
  apply list_eq. intros k. rewrite lookup_drop.
  destruct k as [| k]; simpl.
  - rewrite Nat.add_0_r. exact Hy.
  - rewrite lookup_nil. apply lookup_ge_None_2. lia.
Qed.

Lemma swap_lookup_last {A : Type} (i j : nat) (l : list A) (y : A) :
  length l = S i -> l !! j = Some y -> swap i j l !! i = Some y.
Proof.
  intros Hlen Hj. unfold swap. rewrite Hj.
  destruct (lookup_lt_is_Some_2 l i ltac:(lia)) as [z Hz]. rewrite Hz.
  destruct (decide (j = i)) as [-> | Hne].
  - rewrite list_lookup_insert_eq by (rewrite length_insert; lia). congruence.
  - rewrite list_lookup_insert_ne by exact Hne.
    apply list_lookup_insert_eq. lia.
Qed.

(** The loop can give every order: for each permutation of the list there
    are numbers to draw that produce it. *)
Lemma fisher_yates_complete {A : Type} (i : nat) (l t : list A) :
  length l = S i -> t ≡ₚ l -> exists entropy, fisher_yates i entropy l = t.
Proof.
  revert l t. induction i as [| i IH]; intros l t Hlen Hperm.
  - destruct l as [| x [| x' l']]; try discriminate Hlen.
    apply Permutation_singleton_r in Hperm. exists []. symmetry. exact Hperm.
  - assert (length t = S (S i)) as Htlen
      by (rewrite (Permutation_length Hperm); exact Hlen).
    destruct t as [| y t' _] using rev_ind; [discriminate Htlen|].
    assert (y ∈ l) as Hin.
    { rewrite <- Hperm. apply elem_of_app. right. apply list_elem_of_singleton.
      reflexivity. }
    apply list_elem_of_lookup_1 in Hin as [j Hj].
    pose proof (lookup_lt_Some l j y Hj) as Hjlt.
    pose proof (swap_lookup_last (S i) j l y Hlen Hj) as Hlast.
    pose proof (snoc_lookup_last (swap (S i) j l) (S i) y
                  ltac:(rewrite swap_length; exact Hlen) Hlast) as Hsplit.
    set (p := take (S i) (swap (S i) j l)) in *.
    assert (t' ≡ₚ p) as Hp.
    { apply (Permutation_app_inv_r [y]).
      rewrite Hperm, <- Hsplit. symmetry. apply swap_Permutation. }
    assert (length p = S i) as Hplen.
    { subst p. rewrite length_take, swap_length. lia. }
    destruct (IH p t' Hplen Hp) as [ent Hent].
    exists (j :: ent). cbn [fisher_yates tail].
    rewrite Nat.mod_small by lia.
    rewrite Hsplit, fisher_yates_app by lia. rewrite Hent. reflexivity.
Qed.

(** X15: [shuffle] can give every order of the songs after the playing
    one: for each permutation of them there are values of [Math.random]
    under which [songs] ends as the playing song followed by that
    permutation. *)
Theorem shuffle_reaches_every_order (q : Queue) (related : Song -> list Song)
  (playing : Song) (rest target : list Song) :
  songs q = playing :: rest ->
  target ≡ₚ rest ->
  exists entropy,
    songs (final shuffle (mkWorld q entropy related)) = playing :: target.
Proof.
  intros Hs Hperm. unfold final, after.
  destruct rest as [| r rest'] eqn:Hrest.
  - apply Permutation_nil_r in Hperm. subst target. exists [].
    rewrite (shuffle_fisher_yates _ playing []) by exact Hs. reflexivity.
  - destruct (fisher_yates_complete (length rest') (r :: rest') target
                eq_refl Hperm) as [entropy Hent].
    exists entropy.
    rewrite (shuffle_fisher_yates _ playing (r :: rest')) by exact Hs.
    cbn [fst snd w_queue w_entropy songs set_songs length].
    replace (S (length rest') - 1)%nat with (length rest') by lia.
    rewrite Hent. reflexivity.
Qed.

Lemma shuffle_reaches_every_order_witness :
  exists entropy,
    songs (final shuffle
             (mkWorld (queue_of ["a"; "b"; "c"; "d"]) entropy (fun _ => [])))
    = map song_of ["a"; "d"; "b"; "c"].
Proof.
  apply (shuffle_reaches_every_order (queue_of ["a"; "b"; "c"; "d"])
           (fun _ => []) (song_of "a") (map song_of ["b"; "c"; "d"])
           (map song_of ["d"; "b"; "c"])).
  - reflexivity.
  - simpl.
    apply (Permutation_cons_append [song_of "b"; song_of "c"] (song_of "d")).
Defined.

(** X16: with at most two songs there is nothing to shuffle: [shuffle]
    returns the queue exactly as it was. *)
Theorem shuffle_short_queue (w : World) :
  (length (songs (w_queue w)) <= 2)%nat ->
  result shuffle w = Returned (w_queue w) /\ final shuffle w = w_queue w.
Proof.
  intros Hlen. unfold result, final, after.
  destruct (songs (w_queue w)) as [| playing rest] eqn:Hs.
  - pose proof (ends_shuffle w) as H. rewrite Hs in H. rewrite H.
    split; reflexivity.
  - rewrite (shuffle_fisher_yates w playing rest Hs). cbv zeta.
    assert (length rest - 1 = 0)%nat as -> by (simpl in Hlen; lia).
    cbn. rewrite <- Hs, set_songs_same. split; reflexivity.
Qed.

Lemma shuffle_short_queue_witness :
  final shuffle (mkWorld (queue_of ["a"; "b"]) [1; 0]%nat (fun _ => []))
  = queue_of ["a"; "b"].
Proof.
  apply (shuffle_short_queue
           (mkWorld (queue_of ["a"; "b"]) [1; 0]%nat (fun _ => []))).
  simpl. lia.
Defined.

(** ** [setRepeatMode] in a row *)

Lemma run_setRepeatMode_toggle (w : World) :
  run (setRepeatMode JsUndefined) w =
  let m := next_mode (repeatMode (w_queue w)) in
  (Returned m, with_queue (set_repeatMode m (w_queue w)) w, [EvGet; EvPut; EvGet]).
Proof. reflexivity. Qed.

(** X17: from any of the three repeat modes, three calls of
    [setRepeatMode] without argument go through the two other modes and
    bring the queue back exactly as it was; each call returns the mode it
    leaves. *)
Theorem setRepeatMode_three_times (w : World) :
  is_mode (repeatMode (w_queue w)) ->
  let toggle := setRepeatMode JsUndefined in
  let w1 := after toggle w in
  let w2 := after toggle w1 in
  let w3 := after toggle w2 in
  w_queue w3 = w_queue w
  /\ result toggle w = Returned (repeatMode (w_queue w1))
  /\ result toggle w1 = Returned (repeatMode (w_queue w2))
  /\ result toggle w2 = Returned (repeatMode (w_queue w))
  /\ is_mode (repeatMode (w_queue w1))
  /\ is_mode (repeatMode (w_queue w2))
  /\ repeatMode (w_queue w1) <> repeatMode (w_queue w)
  /\ repeatMode (w_queue w2) <> repeatMode (w_queue w)
  /\ repeatMode (w_queue w1) <> repeatMode (w_queue w2).
Proof.
  intros Hm. cbv zeta. unfold result, after.
  rewrite !run_setRepeatMode_toggle. cbv zeta.
  cbn [fst snd w_queue with_queue repeatMode set_repeatMode].
  destruct (w_queue w) as [sg pv st pl pa rm au bt nx pr ls sv cm].
  cbn [repeatMode set_repeatMode] in *.
  unfold is_mode, DISABLED, SONG, QUEUE in *.
  destruct Hm as [-> | [-> | ->]]; cbn; repeat split; auto; discriminate.
Qed.

Lemma setRepeatMode_three_times_witness :
  let toggle := setRepeatMode JsUndefined in
  w_queue (after toggle (after toggle (after toggle
             (world_of (set_repeatMode SONG (queue_of ["a"]))))))
  = set_repeatMode SONG (queue_of ["a"]).
Proof.
  cbv zeta.
  apply (setRepeatMode_three_times
           (world_of (set_repeatMode SONG (queue_of ["a"])))).
  right. left. reflexivity.
Defined.

(** ** [setRepeatMode] by argument *)

(** X23: without an argument [setRepeatMode] moves DISABLED to SONG, SONG to
    QUEUE and QUEUE to DISABLED. An argument passes the check when it is
    one of the numbers 0, 1, 2 or one of the strings "DISABLED", "SONG",
    "QUEUE": when the field already holds it, the field is reset to
    DISABLED, otherwise the argument is stored as it is. Any other defined
    argument throws INVALID_TYPE and leaves the queue as it was. The result
    is what the field holds afterwards. *)
Theorem setRepeatMode_by_argument (w : World) :
  let q := w_queue w in
  (repeatMode q = DISABLED ->
   result (setRepeatMode JsUndefined) w = Returned SONG
   /\ final (setRepeatMode JsUndefined) w = set_repeatMode SONG q)
  /\ (repeatMode q = SONG ->
      result (setRepeatMode JsUndefined) w = Returned QUEUE
      /\ final (setRepeatMode JsUndefined) w = set_repeatMode QUEUE q)
  /\ (repeatMode q = QUEUE ->
      result (setRepeatMode JsUndefined) w = Returned DISABLED
      /\ final (setRepeatMode JsUndefined) w = set_repeatMode DISABLED q)
  /\ (forall v m, accepted m -> denotes v m -> repeatMode q = m ->
      result (setRepeatMode v) w = Returned DISABLED
      /\ final (setRepeatMode v) w = set_repeatMode DISABLED q)
  /\ (forall v m, accepted m -> denotes v m -> repeatMode q <> m ->
      result (setRepeatMode v) w = Returned m
      /\ final (setRepeatMode v) w = set_repeatMode m q)
  /\ (forall v, v <> JsUndefined -> (forall m, accepted m -> ~ denotes v m) ->
      result (setRepeatMode v) w = Thrown INVALID_TYPE
      /\ final (setRepeatMode v) w = q).
Proof.
  cbv zeta. unfold result, final, after.
  split; [|split; [|split; [|split; [|split]]]].
  - rewrite run_setRepeatMode_toggle. intros ->. split; reflexivity.
  - rewrite run_setRepeatMode_toggle. intros ->. split; reflexivity.
  - rewrite run_setRepeatMode_toggle. intros ->. split; reflexivity.
  - intros v m Hm Hv E.
    destruct (run_setRepeatMode_value v m w (denotes_defined v m Hv)
                (RepeatMode_of_value_Some v m Hm Hv)) as [Hres Hfin].
    cbv zeta in Hres, Hfin. unfold result, final, after in Hres, Hfin.
    rewrite E, (mode_eq_refl m (accepted_defined m Hm)) in Hres, Hfin.
    split; [exact Hres | exact Hfin].
  - intros v m Hm Hv E.
    destruct (run_setRepeatMode_value v m w (denotes_defined v m Hv)
                (RepeatMode_of_value_Some v m Hm Hv)) as [Hres Hfin].
    cbv zeta in Hres, Hfin. unfold result, final, after in Hres, Hfin.
    rewrite (mode_eq_false _ m E) in Hres, Hfin.
    split; [exact Hres | exact Hfin].
  - intros v Hdef Hv.
    pose proof (RepeatMode_of_value_None v Hv) as Hof.
    unfold setRepeatMode.
    destruct v; try congruence; rewrite Hof; cbn; split; reflexivity.
Qed.

Lemma setRepeatMode_by_argument_witness :
  let w := world_of (queue_of ["a"]) in
  result (setRepeatMode JsUndefined) w = Returned SONG
  /\ result (setRepeatMode (JsInt 0)) w = Returned DISABLED
  /\ result (setRepeatMode (JsInt 2)) w = Returned QUEUE
  /\ result (setRepeatMode (JsString "QUEUE")) w = Returned (Named NameQUEUE)
  /\ result (setRepeatMode (JsInt 3)) w = Thrown INVALID_TYPE
  /\ result (setRepeatMode (JsString "queue")) w = Thrown INVALID_TYPE.
Proof.
  pose proof (setRepeatMode_by_argument (world_of (queue_of ["a"]))) as H.
  cbv zeta in H. destruct H as (H0 & _ & _ & Heq & Hne & Hbad).
  cbv zeta.
  split; [apply H0; reflexivity|].
  split.
  { apply (Heq (JsInt 0) DISABLED).
    - left; left; reflexivity.
    - exists (inject_Z 0). split; reflexivity.
    - reflexivity. }
  split.
  { apply (Hne (JsInt 2) QUEUE).
    - left; right; right; reflexivity.
    - exists (inject_Z 2). split; reflexivity.
    - discriminate. }
  split.
  { apply (Hne (JsString "QUEUE") (Named NameQUEUE)).
    - right. exists NameQUEUE. reflexivity.
    - reflexivity.
    - discriminate. }
  split.
  { apply Hbad.
    - discriminate.
    - intros [z | name |] Hm Hv; cbn in Hv.
      + destruct Hv as (q & [= <-] & Hq).
        destruct Hm as [[[= ->] | [[= ->] | [= ->]]] | [name [=]]];
          discriminate Hq.
      + discriminate Hv.
      + exact Hv. }
  apply Hbad.
  - discriminate.
  - intros [z | name |] Hm Hv; cbn in Hv.
    + destruct Hv as (q & [=] & _).
    + destruct name; discriminate Hv.
    + exact Hv.
Defined.

(** ** The event loop never gets stuck *)

(** X18: while commands that go through the task queue are issued, granted
    and answered in any order, the loop is never stuck with a ticket
    pending: the command with the oldest ticket either waits for the task
    queue, and can be granted, or holds the queue and waits for a plugin,
    and can be answered with whatever the plugin finds. *)
Theorem event_loop_progress (q : Queue) (entropy : list nat) (ls : list Turn)
  (s : System) :
  forallb issues_async ls = true ->
  turns ls (initial q entropy) = Some s ->
  sys_tickets s <> [] ->
  exists n,
    head (sys_tickets s) = Some n
    /\ ((exists s', turn (Grant n) s = Some s')
        \/ (forall found, exists s', turn (Answer n found) s = Some s')).
Proof.
  intros Hls Hturns Htick.
  destruct (inv_turns ls _ s 0 _ (inv_initial q entropy) Hls Hturns)
    as (r & st & HI).
  destruct (head (sys_tickets s)) as [n |] eqn:Hhead.
  2:{ destruct (sys_tickets s); [contradiction | discriminate]. }
  exists n. split; [reflexivity|].
  destruct (inv_head s r st n HI Hhead) as [-> Hr].
  destruct (lookup_lt_is_Some_2 (sys_tasks s) r Hr) as [t Ht].
  pose proof (inv_tasks s r st HI r t Ht) as Hshape.
  rewrite Nat.ltb_irrefl, Nat.eqb_refl in Hshape.
  destruct (holder st).
  - right. intros found. destruct t as [A k | A song k | A res];
      try contradiction.
    cbn [turn]. rewrite Ht. eexists. reflexivity.
  - left. destruct t as [A k | A song k | A res]; try contradiction.
    cbn [turn]. rewrite Ht. unfold TaskQueue.granted.
    rewrite bool_decide_eq_true_2 by exact Hhead. eexists. reflexivity.
Qed.

Lemma event_loop_progress_witness :
  exists s n,
    turns [Issue CmdSkip; Issue CmdPause; Grant 0%nat]
      (initial (set_autoplay true (queue_of ["a"])) []) = Some s
    /\ head (sys_tickets s) = Some n
    /\ ((exists s', turn (Grant n) s = Some s')
        \/ (forall found, exists s', turn (Answer n found) s = Some s')).
Proof.
  destruct (turns [Issue CmdSkip; Issue CmdPause; Grant 0%nat]
              (initial (set_autoplay true (queue_of ["a"])) [])) as [s |] eqn:E.
  - destruct (event_loop_progress (set_autoplay true (queue_of ["a"])) []
                [Issue CmdSkip; Issue CmdPause; Grant 0%nat] s eq_refl E)
      as (n & Hn & H).
    + vm_compute in E. injection E as <-. discriminate.
    + exists s, n. split; [reflexivity|]. split; assumption.
  - vm_compute in E. discriminate.
Defined.

(** The command that holds the queue gets to its end, once the plugins it
    asks have answered, and gives its ticket back. *)
Lemma holder_finishes {A : Type} (p : Prog A) :
  Releases p ->
  forall (s0 : System) (r : nat) (st1 : Windows),
    scan (mkWindows None 0) (sys_log s0) = Some st1 ->
    holder st1 = Some r ->
    admissions st1 = S r ->
    sys_tickets s0 = seq r (length (sys_tasks s0) - r) ->
    (r < length (sys_tasks s0))%nat ->
    (forall n t, n <> r -> sys_tasks s0 !! n = Some t ->
       if (n <? r)%nat then task_finished t else task_waiting t) ->
    exists ls s' r' st',
      forallb issues_nothing ls = true
      /\ turns ls (settle r (advance r p s0)) = Some s'
      /\ Inv s' r' st'
      /\ sys_tickets s' = tail (sys_tickets s0)
      /\ length (sys_tasks s') = length (sys_tasks s0).
Proof.
  induction 1 as [k Hover | X e k He Hk IH];
    intros s0 r st1 Hscan Hh Hadm Htick Hr Hothers.
  - destruct (inv_holder_runs (Vis Resolve k) s0 r st1
                (releases_now k Hover) Hscan Hh Hadm Htick Hr Hothers)
      as (r' & st' & HI).
    exists [], (settle r (advance r (Vis Resolve k) s0)), r', st'.
    split; [reflexivity|]. split; [reflexivity|]. split; [exact HI|].
    cbn [advance react]. specialize (Hover tt).
    destruct (k tt); try contradiction; cbn; rewrite length_insert;
      split; reflexivity.
  - assert (forall ev, ev <> EvQueuing -> ev <> EvResolve ->
                 scan (mkWindows None 0) (sys_log s0 ++ [Did r ev]) = Some st1)
      as Hlog.
    { intros ev H1 H2. rewrite scan_snoc, Hscan.
      apply observe_holder; assumption. }
    destruct e; try discriminate He; cbn [advance react];
      try match goal with
        | |- context [advance r (k ?x) ?s'] =>
            apply (IH x s' r st1);
            [apply Hlog; discriminate | exact Hh | exact Hadm
            | exact Htick | exact Hr | exact Hothers]
        end.
    set (s1 := settle r (logged (Did r (EvRelated s)) s0,
                         @Fetching A s k)).
    assert (sys_tasks s1 !! r = Some (@Fetching A s k)) as Hpark.
    { subst s1. cbn. apply list_lookup_insert_eq. exact Hr. }
    destruct (IH [] s1 r st1)
      as (ls & s' & r' & st' & Hls & Hturns & HI & Ht & Hlen).
    + subst s1. cbn. apply Hlog; discriminate.
    + exact Hh.
    + exact Hadm.
    + subst s1. cbn. rewrite length_insert. exact Htick.
    + subst s1. cbn. rewrite length_insert. exact Hr.
    + subst s1. cbn. intros n t Hne Hl.
      rewrite list_lookup_insert_ne in Hl by congruence.
      exact (Hothers n t Hne Hl).
    + exists (Answer r [] :: ls), s', r', st'.
      split; [exact Hls|]. split; [|split; [exact HI|]].
      * cbn [turns turn]. rewrite Hpark. exact Hturns.
      * subst s1. cbn in Ht, Hlen. rewrite length_insert in Hlen.
        split; [exact Ht | exact Hlen].
Qed.

(** The command with the oldest ticket gets to its end. *)
Lemma oldest_finishes (s : System) (r : nat) (st : Windows) (n : nat)
  (rest : list nat) :
  Inv s r st -> sys_tickets s = n :: rest ->
  exists ls s' r' st',
    forallb issues_nothing ls = true
    /\ turns ls s = Some s'
    /\ Inv s' r' st'
    /\ sys_tickets s' = rest
    /\ length (sys_tasks s') = length (sys_tasks s).
Proof.
  intros HI Htick.
  assert (head (sys_tickets s) = Some n) as Hhead by (rewrite Htick; reflexivity).
  destruct (inv_head s r st n HI Hhead) as [-> Hr].
  destruct (lookup_lt_is_Some_2 (sys_tasks s) r Hr) as [t Ht].
  pose proof (inv_tasks s r st HI r t Ht) as Hshape.
  rewrite Nat.ltb_irrefl, Nat.eqb_refl in Hshape.
  destruct (holder st) as [h |] eqn:Hh.
  - destruct t as [A k | A song k | A res]; try contradiction.
    destruct (inv_holder s r st HI) as [Hnone | [Hsome _]]; [congruence|].
    assert (h = r) as -> by congruence.
    destruct (holder_finishes (k []) (Hshape []) s r st
                (inv_scan s r st HI) Hh
                ltac:(rewrite (inv_admissions s r st HI), Hh; reflexivity)
                (inv_tickets s r st HI) Hr (inv_others s r st HI))
      as (ls1 & s2 & r1 & st1 & Hls1 & Hturns1 & HI2 & Ht2 & Hlen2).
    exists (Answer r [] :: ls1), s2, r1, st1.
    split; [exact Hls1|]. split; [cbn [turns turn]; rewrite Ht; exact Hturns1|].
    split; [exact HI2|]. rewrite Htick in Ht2. split; [exact Ht2 | exact Hlen2].
  - destruct t as [A k | A song k | A res]; try contradiction.
    destruct (holder_finishes (k tt) Hshape (logged (Granted r) s) r
                (mkWindows (Some r) (S r)))
      as (ls1 & s2 & r1 & st1 & Hls1 & Hturns1 & HI2 & Ht2 & Hlen2).
    + cbn. rewrite scan_snoc, (inv_scan s r st HI). simpl.
      rewrite Hh, (inv_admissions s r st HI), Hh, Nat.eqb_refl. reflexivity.
    + reflexivity.
    + reflexivity.
    + exact (inv_tickets s r st HI).
    + exact Hr.
    + exact (inv_others s r st HI).
    + exists (Grant r :: ls1), s2, r1, st1.
      split; [exact Hls1|]. split.
      { cbn [turns turn]. rewrite Ht. unfold TaskQueue.granted.
        rewrite bool_decide_eq_true_2 by exact Hhead. exact Hturns1. }
      split; [exact HI2|]. cbn in Ht2, Hlen2. rewrite Htick in Ht2.
      split; [exact Ht2 | exact Hlen2].
Qed.

Lemma turns_app (l1 l2 : list Turn) (s : System) :
  turns (l1 ++ l2) s =
  match turns l1 s with
  | Some s' => turns l2 s'
  | None => None
  end.
Proof.
  revert s. induction l1 as [| l l1 IH]; intros s; [reflexivity|].
  simpl. destruct (turn l s); [apply IH | reflexivity].
Qed.

(** X19: every command that goes through the task queue gets to its end:
    from any state the loop can reach, granting the tickets in turn and
    letting the plugins answer empties the task queue and leaves every
    command over, without a new command being issued. *)
Theorem event_loop_drains (q : Queue) (entropy : list nat) (ls : list Turn)
  (s : System) :
  forallb issues_async ls = true ->
  turns ls (initial q entropy) = Some s ->
  exists ls' s',
    forallb issues_nothing ls' = true
    /\ turns ls' s = Some s'
    /\ sys_tickets s' = []
    /\ length (sys_tasks s') = length (sys_tasks s)
    /\ (forall n t, sys_tasks s' !! n = Some t -> task_finished t).
Proof.
  intros Hls Hturns.
  destruct (inv_turns ls _ s 0 _ (inv_initial q entropy) Hls Hturns)
    as (r & st & HI).
  clear Hls Hturns ls.
  remember (sys_tickets s) as pending eqn:Hpending.
  revert s r st HI Hpending.
  induction pending as [| n rest IH]; intros s r st HI Hpending.
  - exists [], s. repeat split; try reflexivity; [symmetry; exact Hpending|].
    intros n t Hl. pose proof (inv_tasks s r st HI n t Hl) as Ht.
    pose proof (inv_tickets s r st HI) as Hseq.
    pose proof (inv_released s r st HI) as Hle.
    rewrite <- Hpending in Hseq.
    assert (length (sys_tasks s) - r = 0)%nat as Hzero.
    { destruct (length (sys_tasks s) - r)%nat; [reflexivity | discriminate]. }
    pose proof (lookup_lt_Some _ _ _ Hl) as Hlt.
    rewrite (proj2 (Nat.ltb_lt n r)) in Ht by lia. exact Ht.
  - destruct (oldest_finishes s r st n rest HI (eq_sym Hpending))
      as (ls1 & s1 & r1 & st1 & Hls1 & Hturns1 & HI1 & Ht1 & Hlen1).
    destruct (IH s1 r1 st1 HI1 (eq_sym Ht1))
      as (ls2 & s2 & Hls2 & Hturns2 & Ht2 & Hlen2 & Hfin).
    exists (ls1 ++ ls2), s2.
    split; [rewrite forallb_app, Hls1, Hls2; reflexivity|].
    split; [rewrite turns_app, Hturns1; exact Hturns2|].
    split; [exact Ht2|]. split; [congruence | exact Hfin].
Qed.

Lemma event_loop_drains_witness :
  exists ls' s',
    turns ([Issue CmdSkip; Issue CmdPause; Grant 0%nat] ++ ls')
      (initial (set_autoplay true (queue_of ["a"])) []) = Some s'
    /\ sys_tickets s' = [].
Proof.
  destruct (turns [Issue CmdSkip; Issue CmdPause; Grant 0%nat]
              (initial (set_autoplay true (queue_of ["a"])) [])) as [s |] eqn:E.
  - destruct (event_loop_drains (set_autoplay true (queue_of ["a"])) []
                [Issue CmdSkip; Issue CmdPause; Grant 0%nat] s eq_refl E)
      as (ls' & s' & _ & Hturns & Htick & _).
    exists ls', s'. rewrite turns_app, E. split; assumption.
  - vm_compute in E. discriminate.
Defined.

(** ** Calls to the voice connection *)

Lemma silent_bind {A B : Type} (p : Prog A) (f : A -> Prog B) :
  Silent p -> (forall a, Silent (f a)) -> Silent (bind p f).
Proof.
  intros Hp Hf. induction Hp as [a | e | X e k He Hk IH]; simpl.
  - apply Hf.
  - constructor.
  - constructor; [exact He | exact IH].
Qed.

Lemma calm_bind {A B : Type} (p : Prog A) (f : A -> Prog B) :
  Calm p -> (forall a, Calm (f a)) -> Calm (bind p f).
Proof.
  intros Hp Hf. induction Hp as [a | X e k He Hk IH]; simpl.
  - apply Hf.
  - constructor; [exact He | exact IH].
Qed.

Lemma silent_perform {X : Type} (e : Eff X) :
  is_voice e = false -> Silent (perform e).
Proof. intros He. constructor; [exact He | intros x; constructor]. Qed.

Lemma calm_perform {X : Type} (e : Eff X) :
  is_voice e = false -> Calm (perform e).
Proof. intros He. constructor; [exact He | intros x; constructor]. Qed.

Lemma onecall_silent {A : Type} (p : Prog A) : Silent p -> OneCall p.
Proof.
  induction 1 as [a | e | X e k He Hk IH]; constructor; assumption.
Qed.

Lemma onecall_bind {A B : Type} (p : Prog A) (f : A -> Prog B) :
  Silent p -> (forall a, OneCall (f a)) -> OneCall (bind p f).
Proof.
  intros Hp Hf. induction Hp as [a | e | X e k He Hk IH]; simpl.
  - apply Hf.
  - constructor.
  - apply onecall_Vis; [exact He | exact IH].
Qed.

Lemma onecall_voice_bind {B : Type} (c : VoiceCall) (f : unit -> Prog B) :
  (forall x, Calm (f x)) -> OneCall (bind (voice c) f).
Proof. intros Hf. apply onecall_Voice. intros x. apply Hf. Qed.

Lemma calm_try_finally {A : Type} (p : Prog A) :
  Calm p -> Calm (try_finally p (perform Resolve)).
Proof.
  induction 1 as [a | X e k He Hk IH]; simpl.
  - constructor; [reflexivity | intros x; constructor].
  - constructor; [exact He | exact IH].
Qed.

Lemma onecall_locked {A : Type} (body : Prog A) :
  OneCall body -> OneCall (locked body).
Proof.
  intros Hb. unfold locked. simpl. apply onecall_Vis; [reflexivity|].
  intros _. induction Hb as [a | e | c k Hk | X e k He Hk IH]; simpl.
  - apply onecall_Vis; [reflexivity | intros x; constructor].
  - apply onecall_Vis; [reflexivity | intros x; constructor].
  - apply onecall_Voice. intros x. apply calm_try_finally, Hk.
  - apply onecall_Vis; [exact He | exact IH].
Qed.

Create HintDb voice.

Ltac branch_step P :=
  match goal with
  | |- P _ (if ?b then _ else _) => destruct b
  | |- P _ (match ?x with _ => _ end) => destruct x
  | |- P _ (let _ := _ in _) => cbv zeta
  end.

Ltac silent_step :=
  first
    [ solve [auto with voice nocore]
    | apply silent_Ret
    | apply silent_Throw
    | apply silent_perform; reflexivity
    | apply silent_bind
    | progress intros
    | branch_step @Silent ].

Ltac silent := repeat silent_step.

Ltac calm_step :=
  first
    [ solve [auto with voice nocore]
    | apply calm_Ret
    | apply calm_perform; reflexivity
    | apply calm_bind
    | progress intros
    | branch_step @Calm ].

Ltac calm := repeat calm_step.

Ltac onecall_step :=
  first
    [ solve [auto with voice nocore]
    | apply onecall_Ret
    | apply onecall_Throw
    | apply onecall_voice_bind; calm
    | apply onecall_bind; [solve [silent]|]
    | progress intros
    | branch_step @OneCall ].

Ltac onecall := repeat onecall_step.

Lemma silent_addToQueue (song : SongArg) (position : JsValue) :
  Silent (addToQueue song position).
Proof. unfold addToQueue. silent. Qed.

Lemma silent_shuffle_loop (i : nat) : Silent (shuffle_loop i).
Proof. induction i as [| i IH]; cbn [shuffle_loop]; silent. Qed.

#[local] Hint Resolve silent_addToQueue silent_shuffle_loop : voice.

Lemma silent_addRelatedSong : Silent addRelatedSong.
Proof. unfold addRelatedSong. silent. Qed.

#[local] Hint Resolve silent_addRelatedSong : voice.

Lemma onecall_program (c : Command) : c <> CmdStop -> OneCall (program c).
Proof.
  intros Hc. destruct c; cbn [program Returns].
  - apply onecall_silent. silent.
  - apply onecall_locked. onecall.
  - apply onecall_locked. onecall.
  - apply onecall_locked. onecall.
  - apply onecall_locked. onecall.
  - apply onecall_locked, onecall_silent. silent.
  - apply onecall_locked. onecall.
  - apply onecall_silent. unfold setRepeatMode. silent.
  - apply onecall_silent. unfold seek, play. silent.
  - congruence.
Qed.

Lemma voice_calls_off (events : list string) :
  voice_calls (map (fun e => EvVoice (VoiceOff e)) events)
  = map VoiceOff events.
Proof.
  induction events as [| e rest IH]; [reflexivity|].
  cbn. unfold voice_calls in IH. rewrite IH. reflexivity.
Qed.

Lemma playback_off (events : list string) :
  List.filter acts_on_playback (map VoiceOff events) = [].
Proof. induction events as [| e rest IH]; [reflexivity | exact IH]. Qed.

Lemma length_playback (l : list VoiceCall) :
  (length (List.filter acts_on_playback l) <= length l)%nat.
Proof.
  induction l as [| c l IH]; [reflexivity|]. simpl.
  destruct (acts_on_playback c); simpl; lia.
Qed.

Lemma voice_calls_stop (w : World) :
  result stop w = Returned tt
  /\ voice_calls (events stop w)
     = VoiceStop :: map VoiceOff (default [] (_listeners (w_queue w))).
Proof.
  unfold result, events, stop.
  rewrite run_locked, run_bind. cbn [voice perform run handle].
  rewrite run_remove. cbn [fst snd w_queue with_queue].
  split; [reflexivity|].
  unfold voice_calls. cbn [app omap list_omap].
  rewrite !omap_app. fold (voice_calls
    (map (fun e => EvVoice (VoiceOff e)) (default [] (_listeners (w_queue w))))).
  rewrite voice_calls_off. cbn. rewrite !app_nil_r. reflexivity.
Qed.

Lemma handle_not_voice {X : Type} (e : Eff X) (w : World) :
  is_voice e = false ->
  voice_calls [(handle e w).2] = [].
Proof.
  intros He. destruct e; try discriminate He; try reflexivity.
  simpl. destruct (draw i w). reflexivity.
Qed.

Lemma voice_calls_cons (ev : Event) (evs : list Event) :
  voice_calls (ev :: evs) = voice_calls [ev] ++ voice_calls evs.
Proof. unfold voice_calls. simpl. destruct ev; reflexivity. Qed.

Lemma events_Vis {A X : Type} (e : Eff X) (k : X -> Prog A) (w : World) :
  events (Vis e k) w
  = (handle e w).2 :: events (k (handle e w).1.1) (handle e w).1.2
  /\ result (Vis e k) w = result (k (handle e w).1.1) (handle e w).1.2.
Proof.
  unfold events, result. simpl. destruct (handle e w) as [[x w'] ev]. simpl.
  destruct (run (k x) w') as [[r w''] evs]. split; reflexivity.
Qed.

Lemma calm_run {A : Type} (p : Prog A) (w : World) :
  Calm p ->
  voice_calls (events p w) = [] /\ exists a, result p w = Returned a.
Proof.
  intros Hp. revert w. induction Hp as [a | X e k He Hk IH]; intros w.
  - split; [reflexivity | exists a; reflexivity].
  - destruct (events_Vis e k w) as [-> ->].
    rewrite voice_calls_cons, (handle_not_voice e w He). apply IH.
Qed.

Lemma onecall_run {A : Type} (p : Prog A) (w : World) :
  OneCall p ->
  (length (voice_calls (events p w)) <= 1)%nat
  /\ (forall e, result p w = Thrown e -> voice_calls (events p w) = []).
Proof.
  intros Hp. revert w.
  induction Hp as [a | e | c k Hk | X e k He Hk IH]; intros w.
  - split; [simpl; lia | reflexivity].
  - split; [simpl; lia | reflexivity].
  - destruct (events_Vis (Voice c) k w) as [-> ->]. cbn [handle fst snd].
    destruct (calm_run (k tt) w (Hk tt)) as [Hnone [a Ha]].
    rewrite voice_calls_cons, Hnone, Ha. split; [simpl; lia | discriminate].
  - destruct (events_Vis e k w) as [-> ->].
    rewrite voice_calls_cons, (handle_not_voice e w He). apply IH.
Qed.

(** X20: every command other than [stop] calls the voice connection at
    most once; [stop] calls [voice.stop()] once and then [voice.off] once
    for each listener, in order. No command calls [stop()], [pause()] or
    [unpause()] more than once in all, none calls the voice connection when
    it throws, and [addToQueue], [shuffle], [setRepeatMode] and [seek]
    never call it. *)
Theorem voice_calls_of_commands (c : Command) (w : World) :
  let calls := voice_calls (events (program c) w) in
  (c <> CmdStop -> (length calls <= 1)%nat)
  /\ (c = CmdStop ->
      calls = VoiceStop :: map VoiceOff (default [] (_listeners (w_queue w))))
  /\ (length (List.filter acts_on_playback calls) <= 1)%nat
  /\ (forall e, result (program c) w = Thrown e -> calls = [])
  /\ (match c with
      | CmdAddToQueue _ _ | CmdShuffle | CmdSetRepeatMode _ | CmdSeek _ => True
      | _ => False
      end -> calls = []).
Proof.
  cbv zeta.
  assert (c = CmdStop ->
          (forall e, result (program c) w <> Thrown e)
          /\ voice_calls (events (program c) w)
             = VoiceStop :: map VoiceOff (default [] (_listeners (w_queue w))))
    as Hstop.
  { intros ->. cbn [program Returns].
    destruct (voice_calls_stop w) as [Hres Hcalls].
    split; [intros e; rewrite Hres; discriminate | exact Hcalls]. }
  assert (c <> CmdStop ->
          (length (voice_calls (events (program c) w)) <= 1)%nat
          /\ (forall e, result (program c) w = Thrown e ->
                voice_calls (events (program c) w) = [])) as Hother.
  { intros Hc. apply onecall_run, onecall_program, Hc. }
  assert ({c = CmdStop} + {c <> CmdStop}) as [Hc | Hc]
    by (destruct c; (left; reflexivity) || (right; discriminate)).
  { destruct (Hstop Hc) as [Hres Hcalls]. rewrite Hcalls.
    split; [intros Hn; contradiction|]. split; [reflexivity|].
    split; [cbn; rewrite playback_off; simpl; lia|].
    split; [intros e He; destruct (Hres e He)|].
    subst c. intros []. }
  destruct (Hother Hc) as [Hone Hthrown].
  split; [intros _; exact Hone|]. split; [intros E; contradiction|].
  split; [etransitivity; [apply length_playback | exact Hone]|].
  split; [exact Hthrown|].
  assert (forall A (p : Prog A), Silent p ->
            forall w', voice_calls (events p w') = []) as Hsilent.
  { intros A p Hp. induction Hp as [a | e | X e k He Hk IH]; intros w';
      try reflexivity.
    destruct (events_Vis e k w') as [-> _].
    rewrite voice_calls_cons, (handle_not_voice e w' He). apply IH. }
  clear Hstop Hother Hone Hthrown Hc.
  destruct c; try contradiction; intros _; cbn [program Returns].
  - apply Hsilent. silent.
  - unfold events, shuffle. rewrite run_locked.
    pose proof (Hsilent _ (q <- get ;;
                           match songs q with
                           | [] => this
                           | playing :: rest =>
                               put (set_songs rest q) ;;
                               shuffle_loop (length rest - 1) ;;
                               q0 <- get ;;
                               put (set_songs (playing :: songs q0) q0) ;; this
                           end) ltac:(silent) w) as H.
    unfold events in H.
    destruct (run _ w) as [[r w'] evs]. cbn [snd] in *.
    unfold voice_calls in *. cbn [omap list_omap].
    rewrite omap_app, H. reflexivity.
  - apply Hsilent. unfold setRepeatMode. silent.
  - apply Hsilent. unfold seek, play. silent.
Qed.

Lemma voice_calls_of_commands_witness :
  voice_calls (events (program CmdSkip) (world_of (queue_of ["a"]))) = []
  /\ (length (voice_calls (events (program CmdPause)
                             (world_of (queue_of ["a"])))) <= 1)%nat
  /\ voice_calls (events (program CmdStop)
                    (world_of (listening ["error"; "finish"] (queue_of ["a"]))))
     = [VoiceStop; VoiceOff "error"; VoiceOff "finish"]
  /\ voice_calls (events (program CmdShuffle) (world_of (queue_of ["a"; "b"])))
     = [].
Proof.
  split.
  { pose proof (voice_calls_of_commands CmdSkip (world_of (queue_of ["a"])))
      as H.
    cbv zeta in H. destruct H as (_ & _ & _ & H & _).
    apply (H NO_UP_NEXT). reflexivity. }
  split.
  { pose proof (voice_calls_of_commands CmdPause (world_of (queue_of ["a"])))
      as H.
    cbv zeta in H. destruct H as (H & _). apply H. discriminate. }
  split.
  { pose proof (voice_calls_of_commands CmdStop
                  (world_of (listening ["error"; "finish"] (queue_of ["a"]))))
      as H.
    cbv zeta in H. destruct H as (_ & H & _). apply H. reflexivity. }
  pose proof (voice_calls_of_commands CmdShuffle
                (world_of (queue_of ["a"; "b"]))) as H.
  cbv zeta in H. destruct H as (_ & _ & _ & _ & H). apply H. exact I.
Defined.

(** ** Commands one after the other *)

Lemma ends_addRelatedSong_added (w : World) (current s : Song)
  (rest l : list Song) :
  songs (w_queue w) = current :: rest ->
  stopped (w_queue w) = false ->
  related_candidates w current = s :: l ->
  (run addRelatedSong w).1 =
  (Returned (adopted (w_queue w) current s),
   with_queue (set_songs (songs (w_queue w) ++ [adopted (w_queue w) current s])
                 (w_queue w)) w).
Proof.
  intros Hs Hst Hc. pose proof (addRelatedSong_cases w) as H.
  remember (run addRelatedSong w).1 as out eqn:E. clear E.
  destruct H as [Hs' | c r Hs' Hc' | c r s0 l0 Hs' Hc' Hst'
                | c r s0 l0 Hs' Hc' Hst' q0 s0']; try congruence.
  assert (c = current) as -> by congruence.
  assert (s0 = s) as -> by congruence. reflexivity.
Qed.

(** X21: [addRelatedSong] only keeps out the songs of the history, not
    those already waiting: called twice in a row with the same answer of
    the plugin, it adds the same related song twice, at the end of
    [songs]. *)
Theorem addRelatedSong_twice (w : World) (current s : Song)
  (rest l : list Song) :
  songs (w_queue w) = current :: rest ->
  stopped (w_queue w) = false ->
  related_candidates w current = s :: l ->
  let s' := adopted (w_queue w) current s in
  result addRelatedSong w = Returned s'
  /\ result addRelatedSong (after addRelatedSong w) = Returned s'
  /\ songs (final addRelatedSong (after addRelatedSong w))
     = current :: rest ++ [s'; s'].
Proof.
  intros Hs Hst Hc. cbv zeta. unfold result, final, after.
  rewrite (ends_addRelatedSong_added w current s rest l Hs Hst Hc).
  cbn [fst snd].
  set (s' := adopted (w_queue w) current s).
  set (w1 := with_queue (set_songs (songs (w_queue w) ++ [s']) (w_queue w)) w).
  assert (songs (w_queue w1) = current :: (rest ++ [s'])) as Hs1
    by (subst w1; cbn; rewrite Hs; reflexivity).
  rewrite (ends_addRelatedSong_added w1 current s (rest ++ [s']) l Hs1).
  - split; [reflexivity|]. split; [reflexivity|].
    cbn [fst snd w_queue with_queue songs set_songs].
    subst w1. cbn [w_queue with_queue songs set_songs].
    rewrite Hs. cbn. rewrite <- app_assoc. reflexivity.
  - subst w1. cbn. exact Hst.
  - exact Hc.
Qed.

Lemma addRelatedSong_twice_witness :
  map id (songs (final addRelatedSong
                   (after addRelatedSong (related_world requested_queue))))
  = ["a"; "r"; "r"].
Proof.
  pose proof (addRelatedSong_twice (related_world requested_queue)
                requested_song (mkSong "r" None None true None) [] []
                eq_refl eq_refl eq_refl) as H.
  cbv zeta in H. destruct H as (_ & _ & H). rewrite H. reflexivity.
Defined.

(** X22: position [1] means next: on a queue that is not stopped and has a
    current song, after [addToQueue(song, 1)] the first of the songs added
    is the one [skip] and [jump(1)] return, and the current song is still
    at index [0]. *)
Theorem added_at_one_plays_next (w : World) (song : SongArg) (s : Song)
  (items : list Song) :
  stopped (w_queue w) = false ->
  songs (w_queue w) <> [] ->
  songs_of_arg song = Some (s :: items) ->
  let w' := after (addToQueue song (JsInt 1)) w in
  result skip w' = Returned (Some s)
  /\ result (jump (JsInt 1)) w' = Returned (Some s)
  /\ songs (w_queue w') !! 0%nat = songs (w_queue w) !! 0%nat.
Proof.
  intros Hst Hne Hi. cbv zeta.
  destruct (run_addToQueue w song (s :: items) 1 Hst Hi) as [_ Hf].
  unfold final in Hf. cbv zeta in Hf. cbn [Z.leb Z.compare] in Hf.
  set (w' := after (addToQueue song (JsInt 1)) w) in *.
  destruct (songs (w_queue w)) as [| current rest] eqn:Hs; [contradiction|].
  assert (songs (w_queue w') = current :: s :: items ++ rest) as Hs'
    by (rewrite Hf; reflexivity).
  unfold result. rewrite ends_skip. cbv zeta. rewrite run_jump_int. cbv zeta.
  rewrite Hs'. cbn [length Nat.leb lookup list_lookup].
  split; [reflexivity|].
  split; [|reflexivity].
  change (1 =? 0) with false. cbn [orb].
  rewrite (proj2 (Z.ltb_ge _ 1)) by (simpl length; lia).
  rewrite (proj2 (Z.ltb_ge _ (- (1)))) by lia.
  change (0 <? 1) with true. cbv iota.
  rewrite splice_start_add_int by lia.
  replace (Z.to_nat (Z.min (1 + -1) (Z.of_nat (length (current :: s :: items ++ rest)))))
    with 0%nat by lia.
  cbn. reflexivity.
Qed.

Lemma added_at_one_plays_next_witness :
  result skip
    (after (addToQueue (ArgSong (song_of "x")) (JsInt 1))
       (world_of (queue_of ["a"; "b"])))
  = Returned (Some (song_of "x")).
Proof.
  apply (added_at_one_plays_next (world_of (queue_of ["a"; "b"]))
           (ArgSong (song_of "x")) (song_of "x") []).
  - reflexivity.
  - discriminate.
  - reflexivity.
Defined.
